(** * JERI Chat: message synchronisation and translation pipeline

    A shallow embedding of the client-side logic of the chat client
    ([src/App.tsx], [src/services/chatSync.ts],
    [src/services/geminiService.ts], [src/types.ts]) and the properties of
    its message list.

    Conventions.
    - Strings are [string]; [===] on strings is [String.eqb].
    - [timestamp] is the integer number of milliseconds that
      [Date.getTime] / [Date.now] return, modelled as [Z].
    - A React state update [setMessages(prev => f prev)] is the function [f]
      on the list; the component state is the record [AppState].
    - [Array.prototype.sort] is stable; it is modelled by a stable insertion
      sort on the comparison key. *)

From Stdlib Require Import String Ascii ZArith List Bool Lia.
From Stdlib Require Import Sorted Permutation DecimalString DecimalZ.
From stdpp Require Import base list.
Import ListNotations.

Local Open Scope string_scope.
Local Open Scope list_scope.
Local Open Scope Z_scope.

(** ** Data model ([src/types.ts]) *)

Record User := mkUser {
  username : string;
  email : string;
  preferredLanguage : string;
  friends : list string;
  friendRequests : list string;
  isGuest : option bool              (* AppUser extends User *)
}.

Record Message := mkMessage {
  id : string;
  sender : string;
  senderEmail : string;
  senderLanguage : string;
  text : string;
  timestamp : Z
}.

(** [TranslatedMessage extends Message]: the six fields of the message and
    the two optional annotations ([None] is JavaScript's [undefined]). *)
Record TranslatedMessage := mkTM {
  base :> Message;
  translatedText : option string;
  isTranslating : option bool
}.

Record ChatRoom := mkRoom {
  room_id_of : string;
  room_name : string;
  isDirect : option bool
}.

Record Language := mkLanguage {
  code : string;
  name : string;
  nativeName : string
}.

(** [m as TranslatedMessage]: a plain message seen at the wider type, both
    annotations absent. *)
Definition asTranslated (m : Message) : TranslatedMessage :=
  mkTM m None None.

(** JavaScript truthiness of the two optional fields. *)
Definition truthy_flag (o : option bool) : bool :=
  match o with Some true => true | _ => false end.

Definition truthy_str (o : option string) : bool :=
  match o with
  | Some s => negb (String.eqb s "")
  | None => false
  end.

Definition ids (l : list TranslatedMessage) : list string :=
  map (fun m : TranslatedMessage => id m) l.

(** ** Arrays *)

(** [Array.prototype.findIndex]; [None] stands for [-1]. *)
Fixpoint findIndex {A} (p : A -> bool) (l : list A) : option nat :=
  match l with
  | [] => None
  | x :: l' =>
      if p x then Some 0%nat
      else match findIndex p l' with
           | Some i => Some (S i)
           | None => None
           end
  end.

(** A stable ascending sort on an integer key: the element inserted stays in
    front of the elements with an equal key that followed it in the input. *)
Section StableSort.
Context {A : Type} (key : A -> Z).

Fixpoint insert_by (x : A) (l : list A) : list A :=
  match l with
  | [] => [x]
  | y :: l' =>
      if key x <=? key y then x :: y :: l' else y :: insert_by x l'
  end.

Fixpoint sort_by (l : list A) : list A :=
  match l with
  | [] => []
  | x :: l' => insert_by x (sort_by l')
  end.

(** Non-decreasing keys, between every two positions. *)
Definition sorted_by (l : list A) : Prop :=
  StronglySorted (fun a b => key a <= key b) l.
End StableSort.

(** [list.sort((a, b) => a.timestamp - b.timestamp)] *)
Definition sort_by_timestamp (l : list TranslatedMessage)
    : list TranslatedMessage :=
  sort_by (fun m : TranslatedMessage => timestamp m) l.

Definition sorted_by_timestamp (l : list TranslatedMessage) : Prop :=
  sorted_by (fun m : TranslatedMessage => timestamp m) l.

(** ** Admission from the live channel ([processMessage], App.tsx) *)

Definition is_temp_match (msg : Message) (m : TranslatedMessage) : bool :=
  String.prefix "temp-" (id m)
  && String.eqb (senderEmail m) (senderEmail msg)
  && String.eqb (text m) (text msg).

Definition eligible (user : User) (msg : Message) : bool :=
  negb (String.eqb (senderLanguage msg) (preferredLanguage user))
  && negb (String.eqb (senderEmail msg) (email user)).

Definition newMessage (user : User) (msg : Message) : TranslatedMessage :=
  {| base := msg; translatedText := None;
     isTranslating := Some (eligible user msg) |}.

Definition has_id (i : string) (l : list TranslatedMessage) : bool :=
  existsb (fun m : TranslatedMessage => String.eqb (id m) i) l.

(** [userRef.current] is [None] while nobody is signed in. *)
Definition processMessage (userRef : option User) (msg : Message)
    (prev : list TranslatedMessage) : list TranslatedMessage :=
  match userRef with
  | None => prev
  | Some user =>
      if has_id (id msg) prev then prev
      else
        let tempMatchIdx := findIndex (is_temp_match msg) prev in
        let newList :=
          match tempMatchIdx with
          | Some i => <[i := newMessage user msg]> prev
          | None => prev ++ [newMessage user msg]
          end in
        sort_by_timestamp newList
  end.

(** The three ways [processMessage] ends for a signed-in user. *)
Inductive processed (user : User) (msg : Message)
    (prev : list TranslatedMessage) : list TranslatedMessage -> Prop :=
  | Discarded :
      In (id msg) (ids prev) ->
      processed user msg prev prev
  | Replaced l1 p l2 :
      ~ In (id msg) (ids prev) ->
      prev = l1 ++ p :: l2 ->
      is_temp_match msg p = true ->
      forallb (fun y => negb (is_temp_match msg y)) l1 = true ->
      processed user msg prev
        (sort_by_timestamp (l1 ++ newMessage user msg :: l2))
  | Appended :
      ~ In (id msg) (ids prev) ->
      (forall x, In x prev -> is_temp_match msg x = false) ->
      processed user msg prev
        (sort_by_timestamp (prev ++ [newMessage user msg])).

(** ** Admission from history (the updater in [initRoom], App.tsx) *)

(** [Map.prototype.set] on a JavaScript [Map], which iterates in the order of
    first insertion of its keys: an existing key keeps its place and gets
    the new value, a new key goes to the end. *)
Fixpoint map_set (k : string) (v : TranslatedMessage)
    (m : list (string * TranslatedMessage)) : list (string * TranslatedMessage) :=
  match m with
  | [] => [(k, v)]
  | (k', v') :: m' =>
      if String.eqb k' k then (k', v) :: m' else (k', v') :: map_set k v m'
  end.

Definition map_values (m : list (string * TranslatedMessage))
    : list TranslatedMessage :=
  map snd m.

Definition set_all (l : list TranslatedMessage)
    (unique : list (string * TranslatedMessage))
    : list (string * TranslatedMessage) :=
  fold_left (fun u (m : TranslatedMessage) => map_set (id m) m u) l unique.

Definition admitHistory (history : list Message)
    (prev : list TranslatedMessage) : list TranslatedMessage :=
  let unique := set_all (map asTranslated history ++ prev) [] in
  sort_by_timestamp (map_values unique).

(** ** Strings: [String.prototype.trim] *)

Definition bytes (l : list nat) : string :=
  fold_right (fun n s => String (ascii_of_nat n) s) EmptyString l.

(** ECMAScript WhiteSpace and LineTerminator code points, in UTF-8. *)
Definition js_whitespace : list string :=
  map bytes
    [ [9]; [10]; [11]; [12]; [13]; [32]; [194; 160]; [225; 154; 128];
      [226; 128; 128]; [226; 128; 129]; [226; 128; 130]; [226; 128; 131];
      [226; 128; 132]; [226; 128; 133]; [226; 128; 134]; [226; 128; 135];
      [226; 128; 136]; [226; 128; 137]; [226; 128; 138]; [226; 128; 168];
      [226; 128; 169]; [226; 128; 175]; [226; 129; 159]; [227; 128; 128];
      [239; 187; 191] ]%nat.

Fixpoint string_rev (s : string) : string :=
  match s with
  | EmptyString => EmptyString
  | String c s' => String.append (string_rev s') (String c EmptyString)
  end.

Fixpoint string_drop (n : nat) (s : string) : string :=
  match n, s with
  | S n', String _ s' => string_drop n' s'
  | _, _ => s
  end.

(** The string without one leading sequence of [ws], if it starts with one. *)
Definition strip_one (ws : list string) (s : string) : option string :=
  match List.find (fun w => String.prefix w s) ws with
  | Some w => Some (string_drop (String.length w) s)
  | None => None
  end.

Fixpoint strip_all (fuel : nat) (ws : list string) (s : string) : string :=
  match fuel with
  | O => s
  | S fuel' =>
      match strip_one ws s with
      | Some s' => strip_all fuel' ws s'
      | None => s
      end
  end.

Definition trimStart (s : string) : string :=
  strip_all (String.length s) js_whitespace s.

Definition trimEnd (s : string) : string :=
  string_rev
    (strip_all (String.length s) (map string_rev js_whitespace) (string_rev s)).

Definition trim (s : string) : string := trimEnd (trimStart s).

(** [a || b] on strings: the empty string is falsy. *)
Definition str_or (a b : string) : string :=
  if String.eqb a "" then b else a.

Definition opt_str_or (a : option string) (b : string) : string :=
  match a with Some a' => str_or a' b | None => b end.

(** ** Thrown values *)

(** What [catch (err)] binds: [err.message] may be missing. *)
Record Exn := mkExn { message : option string }.

(** A computation that returns a value or throws. *)
Definition Throws (A : Type) : Type := (A + Exn)%type.

Definition ret {A} (a : A) : Throws A := inl a.
Definition throw {A} (e : Exn) : Throws A := inr e.

(** [try { body } catch (err) { handler err }] *)
Definition try_catch {A} (body : Throws A) (handler : Exn -> Throws A)
    : Throws A :=
  match body with
  | inl a => inl a
  | inr e => handler e
  end.

(** ** Sync adapter ([src/services/chatSync.ts]) *)

(** A row of the [messages] table.  [created_at] is the row's creation time
    as the number of milliseconds [new Date(created_at).getTime()] gives. *)
Record DbRow := mkRow {
  db_id : string;
  room_id : string;
  sender_email : string;
  sender_username : string;
  sender_language : string;
  db_text : string;
  created_at : Z
}.

(** The [{ data, error }] object a query resolves to. *)
Record QueryResult := mkResult {
  data : option (list DbRow);
  db_error : option Exn
}.

(** The remote store: the rows it holds, or the error it answers with. *)
Inductive Store :=
  | Serving (table : list DbRow)
  | Failing (e : Exn).

(** The query builder of the store client, which is not part of this
    repository: [.eq('room_id', roomId)] keeps the rows of the room,
    [.order('created_at', { ascending: true })] orders them by creation time,
    earliest first (rows with equal times in table order), [.limit(n)] keeps
    the first [n] rows of the ordered result. *)
Definition q_eq_room_id (roomId : string) (rows : list DbRow) : list DbRow :=
  List.filter (fun r => String.eqb (room_id r) roomId) rows.

Definition q_order_created_at_asc (rows : list DbRow) : list DbRow :=
  sort_by created_at rows.

Definition q_limit (n : nat) (rows : list DbRow) : list DbRow :=
  firstn n rows.

Definition history_query (store : Store) (roomId : string) : QueryResult :=
  match store with
  | Serving table =>
      {| data := Some (q_limit 50
                         (q_order_created_at_asc (q_eq_room_id roomId table)));
         db_error := None |}
  | Failing e => {| data := None; db_error := Some e |}
  end.

Definition rowToMessage (dbMsg : DbRow) : Message :=
  {| id := db_id dbMsg;
     sender := sender_username dbMsg;
     senderEmail := sender_email dbMsg;
     senderLanguage := sender_language dbMsg;
     text := db_text dbMsg;
     timestamp := created_at dbMsg |}.

Definition fetchHistory (store : Store) (roomId : string)
    : Throws (list Message) :=
  let r := history_query store roomId in
  match db_error r with
  | Some error => throw error
  | None =>
      ret (map rowToMessage (match data r with Some d => d | None => [] end))
  end.

(** [chatSync.sendMessage]: [insert_error] is the [error] of the insert. *)
Definition chatSync_sendMessage (insert_error : option Exn) : Throws unit :=
  match insert_error with
  | Some error => throw error
  | None => ret tt
  end.

(** ** Translation gateway ([src/services/geminiService.ts]) *)

(** What [ai.models.generateContent] does: it resolves to a response whose
    [text] may be missing, or it rejects. *)
Inductive GenerateOutcome :=
  | Responds (response_text : option string)
  | Rejects (e : Exn).

Definition translateText (api_key : option string) (gen : GenerateOutcome)
    (text targetLanguage : string) (sourceLanguage : option string)
    : Throws string :=
  if negb (truthy_str api_key)
  then throw (mkExn (Some "API key is missing"))
  else
    try_catch
      (match gen with
       | Responds response_text =>
           ret (opt_str_or (option_map trim response_text) text)
       | Rejects e => throw e
       end)
      (fun _ => ret text).

(** ** Component state ([App], App.tsx) *)

Record AppState := mkApp {
  currentUser : option User;
  currentRoom : option ChatRoom;
  messages : list TranslatedMessage;
  isHistoryLoading : bool;
  inputText : string;
  error : option string
}.

Definition set_messages (l : list TranslatedMessage) (s : AppState) : AppState :=
  mkApp (currentUser s) (currentRoom s) l (isHistoryLoading s) (inputText s)
        (error s).

Definition set_inputText (t : string) (s : AppState) : AppState :=
  mkApp (currentUser s) (currentRoom s) (messages s) (isHistoryLoading s) t
        (error s).

Definition set_error (e : option string) (s : AppState) : AppState :=
  mkApp (currentUser s) (currentRoom s) (messages s) (isHistoryLoading s)
        (inputText s) e.

Definition set_isHistoryLoading (b : bool) (s : AppState) : AppState :=
  mkApp (currentUser s) (currentRoom s) (messages s) b (inputText s) (error s).

(** *** Room entry ([initRoom]) *)

(** The synchronous start of [initRoom]. *)
Definition initRoom_start (s : AppState) : AppState :=
  set_error None (set_messages [] (set_isHistoryLoading true s)).

(** The continuation after [await chatSync.fetchHistory(...)], while the
    effect is still mounted. *)
Definition initRoom_settle (fetched : Throws (list Message)) (s : AppState)
    : AppState :=
  set_isHistoryLoading false
    match fetched with
    | inl history => set_messages (admitHistory history (messages s)) s
    | inr err =>
        set_error
          (Some (String.append "Sync Error: "
                   (opt_str_or (message err) "Failed to load messages."))) s
    end.

(** *** Optimistic send ([sendMessage]) *)

(** Template-literal conversion of [Date.now()], an integer. *)
Definition number_to_string (n : Z) : string :=
  NilZero.string_of_int (Z.to_int n).

(** What the pending [await chatSync.sendMessage(...)] remembers. *)
Record PendingSend := mkPending {
  tempId : string;
  textToSubmit : string;
  roomToSubmit : string
}.

(** The synchronous part of [sendMessage]; [now_id] and [now_ts] are the
    values of its two calls of [Date.now()]. *)
Definition sendMessage_start (now_id now_ts : Z) (s : AppState)
    : AppState * option PendingSend :=
  match currentUser s, currentRoom s with
  | Some user, Some room =>
      if String.eqb (trim (inputText s)) "" then (s, None)
      else
        let textToSubmit := inputText s in
        let tempId := String.append "temp-" (number_to_string now_id) in
        let optimisticMessage :=
          {| base := {| id := tempId;
                        sender := username user;
                        senderEmail := email user;
                        senderLanguage := preferredLanguage user;
                        text := textToSubmit;
                        timestamp := now_ts |};
             translatedText := None;
             isTranslating := Some false |} in
        (set_messages (messages s ++ [optimisticMessage])
           (set_error None (set_inputText "" s)),
         Some (mkPending tempId textToSubmit (room_id_of room)))
  | _, _ => (s, None)
  end.

(** The continuation after [await chatSync.sendMessage(...)]: the [catch]
    block runs when the call threw. *)
Definition sendMessage_settle (p : PendingSend) (sent : Throws unit)
    (s : AppState) : Throws AppState :=
  try_catch
    (match sent with
     | inl _ => ret s
     | inr err => throw err
     end)
    (fun err =>
       ret (set_inputText (textToSubmit p)
              (set_messages
                 (List.filter
                    (fun m : TranslatedMessage =>
                       negb (String.eqb (id m) (tempId p)))
                    (messages s))
                 (set_error
                    (Some (String.append "Send Failed: "
                             (opt_str_or (message err) "Unknown error")))
                    s)))).

(** *** Translation side effect *)

Definition is_untranslated (m : TranslatedMessage) : bool :=
  truthy_flag (isTranslating m) && negb (truthy_str (translatedText m)).

(** [SUPPORTED_LANGUAGES.find(l => l.code === c)?.name || c]; the table of
    languages is a constant of the application. *)
Definition language_name (SUPPORTED_LANGUAGES : list Language) (c : string)
    : string :=
  match List.find (fun l => String.eqb (code l) c) SUPPORTED_LANGUAGES with
  | Some l => str_or (name l) c
  | None => c
  end.

(** A call of [translateText] that has not settled yet. *)
Record TranslationRequest := mkRequest {
  untranslated : TranslatedMessage;
  targetLangName : string;
  sourceLangName : string
}.

(** The body of the effect on [messages, currentUser]: the request it
    starts, if any. *)
Definition translation_effect (SUPPORTED_LANGUAGES : list Language)
    (s : AppState) : option TranslationRequest :=
  match List.find is_untranslated (messages s) with
  | Some untranslated =>
      match currentUser s with
      | Some user =>
          Some (mkRequest untranslated
                  (language_name SUPPORTED_LANGUAGES (preferredLanguage user))
                  (language_name SUPPORTED_LANGUAGES
                     (senderLanguage untranslated)))
      | None => None
      end
  | None => None
  end.

Definition annotate (i : string) (t : string) (m : TranslatedMessage)
    : TranslatedMessage :=
  if String.eqb (id m) i
  then {| base := base m; translatedText := Some t; isTranslating := Some false |}
  else m.

(** The continuation of [doTranslation] after [await translateText(...)]. *)
Definition doTranslation_settle (req : TranslationRequest)
    (translation : Throws string) (s : AppState) : Throws AppState :=
  try_catch
    (match translation with
     | inl translated =>
         ret (set_messages
                (map (annotate (id (untranslated req)) translated) (messages s))
                s)
     | inr err => throw err
     end)
    (fun err =>
       ret (set_messages
              (map (annotate (id (untranslated req)) (text (untranslated req)))
                 (messages s))
              s)).

(** ** The pipeline as a transition system

    Everything that changes the message list is a callback that runs to
    completion: a keystroke in the input, room entry, the settling of the
    history fetch, a message pushed by the live channel, a submit of the
    form, the settling of a send, the settling of a translation, a change of
    the preferred language.  After a callback that gave [messages] or
    [currentUser] a new value, the translation effect runs once. *)

Record Pipeline := mkPipe {
  app : AppState;
  inflight : list TranslationRequest;  (* calls of translateText not settled *)
  sending : list PendingSend           (* calls of chatSync.sendMessage not settled *)
}.

Inductive Event :=
  | Typed (draft : string)
  | EnterRoom (room : ChatRoom)
  | HistoryFetched (fetched : Throws (list Message))
  | LiveMessage (msg : Message)
  | Submit (now_id now_ts : Z)
  | SendSettled (k : nat) (insert_error : option Exn)
  | TranslationSettled (k : nat) (api_key : option string)
      (gen : GenerateOutcome)
  | LanguageChanged (langCode : string).

(** [processMessage] hands back [prev] itself, so that nothing is rendered
    again, when nobody is signed in or the id is known. *)
Definition returns_prev (userRef : option User) (msg : Message)
    (prev : list TranslatedMessage) : bool :=
  match userRef with
  | None => true
  | Some _ => has_id (id msg) prev
  end.

Definition with_language (langCode : string) (u : User) : User :=
  mkUser (username u) (email u) langCode (friends u) (friendRequests u)
         (isGuest u).

Section Step.
Variable SUPPORTED_LANGUAGES : list Language.

(** The translation effect, run on the state just rendered. *)
Definition run_effect (p : Pipeline) : Pipeline :=
  match translation_effect SUPPORTED_LANGUAGES (app p) with
  | Some req => mkPipe (app p) (inflight p ++ [req]) (sending p)
  | None => p
  end.

Definition step (p : Pipeline) (e : Event) : Pipeline :=
  match e with
  | Typed draft =>
      mkPipe (set_inputText draft (app p)) (inflight p) (sending p)
  | EnterRoom room =>
      match currentUser (app p) with
      | Some _ =>
          let s := app p in
          let s' := mkApp (currentUser s) (Some room) (messages s)
                      (isHistoryLoading s) (inputText s) (error s) in
          run_effect (mkPipe (initRoom_start s') (inflight p) (sending p))
      | None => p
      end
  | HistoryFetched fetched =>
      let p' := mkPipe (initRoom_settle fetched (app p)) (inflight p)
                  (sending p) in
      match fetched with
      | inl _ => run_effect p'
      | inr _ => p'
      end
  | LiveMessage msg =>
      let s := app p in
      if returns_prev (currentUser s) msg (messages s) then p
      else
        run_effect
          (mkPipe (set_messages (processMessage (currentUser s) msg
                                   (messages s)) s)
             (inflight p) (sending p))
  | Submit now_id now_ts =>
      match sendMessage_start now_id now_ts (app p) with
      | (s', Some pending) =>
          run_effect (mkPipe s' (inflight p) (sending p ++ [pending]))
      | (_, None) => p
      end
  | SendSettled k insert_error =>
      match sending p !! k with
      | Some pending =>
          let sent := chatSync_sendMessage insert_error in
          match sendMessage_settle pending sent (app p), sent with
          | inl s', inr _ =>
              run_effect (mkPipe s' (inflight p) (delete k (sending p)))
          | inl s', inl _ => mkPipe s' (inflight p) (delete k (sending p))
          | inr _, _ => p
          end
      | None => p
      end
  | TranslationSettled k api_key gen =>
      match inflight p !! k with
      | Some req =>
          let translation :=
            translateText api_key gen (text (untranslated req))
              (targetLangName req) (Some (sourceLangName req)) in
          match doTranslation_settle req translation (app p) with
          | inl s' => run_effect (mkPipe s' (delete k (inflight p)) (sending p))
          | inr _ => p
          end
      | None => p
      end
  | LanguageChanged langCode =>
      match currentUser (app p) with
      | Some u =>
          let s := app p in
          run_effect
            (mkPipe (mkApp (Some (with_language langCode u)) (currentRoom s)
                       (messages s) (isHistoryLoading s) (inputText s)
                       (error s))
               (inflight p) (sending p))
      | None => p
      end
  end.

Definition run (p : Pipeline) (evs : list Event) : Pipeline :=
  fold_left step evs p.
End Step.

(** The state right after sign-in: no room, no message, nothing pending. *)
Definition signed_in (u : User) : Pipeline :=
  mkPipe (mkApp (Some u) None [] false "" None) [] [].

(** Sequences of admissions, on the list alone. *)
Inductive Admission :=
  | FromHistory (history : list Message)
  | FromLive (msg : Message).

Definition apply_admission (userRef : option User) (l : list TranslatedMessage)
    (a : Admission) : list TranslatedMessage :=
  match a with
  | FromHistory history => admitHistory history l
  | FromLive msg => processMessage userRef msg l
  end.

(** The ids an admission brings. *)
Definition admitted_ids (a : Admission) : list string :=
  match a with
  | FromHistory history => map id history
  | FromLive msg => [id msg]
  end.

Definition admit_all (userRef : option User) (ops : list Admission)
    (l : list TranslatedMessage) : list TranslatedMessage :=
  fold_left (apply_admission userRef) ops l.

(** [Map.prototype.get], and the value a [Map] holds for a key after the
    elements of [l] were set in order: the last element with that id. *)
Fixpoint map_get (k : string) (m : list (string * TranslatedMessage))
    : option TranslatedMessage :=
  match m with
  | [] => None
  | (k', v) :: m' => if String.eqb k' k then Some v else map_get k m'
  end.

Definition map_keys (m : list (string * TranslatedMessage)) : list string :=
  map fst m.

Fixpoint last_with_id (k : string) (l : list TranslatedMessage)
    : option TranslatedMessage :=
  match l with
  | [] => None
  | x :: l' =>
      match last_with_id k l' with
      | Some v => Some v
      | None => if String.eqb (id x) k then Some x else None
      end
  end.

(** Every entry of the map is filed under the id of its message. *)
Definition keyed_by_id (m : list (string * TranslatedMessage)) : Prop :=
  Forall (fun kv : string * TranslatedMessage => fst kv = id (snd kv)) m.

(** A translation attempt fails when the credentials are missing or the
    gateway rejects the request. *)
Definition translation_fails (api_key : option string)
    (gen : GenerateOutcome) : Prop :=
  truthy_str api_key = false \/ exists e, gen = Rejects e.

(** ** Readings of the specification and sample data *)

(** The rows of a room that a fetch of "the [n] most recent messages,
    oldest first" would return: the [n] rows created last, in ascending
    order of creation. *)
Definition most_recent (n : nat) (roomId : string) (table : list DbRow)
    : list DbRow :=
  let rows := q_order_created_at_asc (q_eq_room_id roomId table) in
  skipn (length rows - n) rows.

(** [m] is the first message of [l], in list order, that the translation
    effect looks for. *)
Definition first_untranslated (l : list TranslatedMessage)
    (m : TranslatedMessage) : Prop :=
  exists before after,
    l = before ++ m :: after /\
    is_untranslated m = true /\
    forallb (fun x => negb (is_untranslated x)) before = true.

(** The requests of [p] that are still pending once event [e] has taken out
    the request it settles. *)
Definition still_outstanding (p : Pipeline) (e : Event)
    : list TranslationRequest :=
  match e with
  | TranslationSettled k _ _ => delete k (inflight p)
  | _ => inflight p
  end.

(** No message of the viewer is marked as being translated. *)
Definition own_never_translating (viewer_email : string)
    (l : list TranslatedMessage) : Prop :=
  Forall (fun m : TranslatedMessage =>
            senderEmail m = viewer_email -> isTranslating m <> Some true) l.

(** The signed-in user of [s] has the identity of [u]. *)
Definition viewer_is (u : User) (s : AppState) : Prop :=
  exists u', currentUser s = Some u' /\ email u' = email u.

(** The messages marked as being translated are in timestamp order. *)
Definition marked (m : TranslatedMessage) : bool :=
  truthy_flag (isTranslating m).

Definition marked_in_order (l : list TranslatedMessage) : Prop :=
  sorted_by_timestamp (List.filter marked l).

(** The invariant: the signed-in user is [u], and no message of [u] is
    marked. *)
Definition own_unmarked (u : User) (p : Pipeline) : Prop :=
  viewer_is u (app p) /\
  own_never_translating (email u) (messages (app p)).

Definition ana : User :=
  mkUser "ana" "ana@jeri.chat" "en" [] [] None.

Definition lobby : ChatRoom := mkRoom "lobby" "Lobby" None.

Definition languages : list Language :=
  [mkLanguage "en" "English" "English"; mkLanguage "es" "Spanish" "Espanol"].

Definition hola : Message :=
  mkMessage "1" "bob" "bob@jeri.chat" "es" "hola" 100.

Definition adios : Message :=
  mkMessage "2" "bob" "bob@jeri.chat" "es" "adios" 200.

(** A room with 51 rows, created at times 1 to 51. *)
Definition busy_table : list DbRow :=
  map (fun k => mkRow (number_to_string (Z.of_nat k)) "lobby" "bob@jeri.chat"
                  "bob" "es" "hola" (Z.of_nat k))
      (seq 1 51).

Definition hola_translated : TranslatedMessage :=
  mkTM hola (Some "hello") (Some false).

(** The viewer sent "hi" twice; the first send is confirmed as row 42, the
    second is still a placeholder. *)
Definition hi_confirmed : Message :=
  mkMessage "42" "ana" "ana@jeri.chat" "en" "hi" 1005.

Definition hi_pending : TranslatedMessage :=
  mkTM (mkMessage "temp-1010" "ana" "ana@jeri.chat" "en" "hi" 1010)
       None (Some false).

(** A message stamped by the store at time 1000. *)
Definition stamped_1000 : Message :=
  mkMessage "7" "bob" "bob@jeri.chat" "en" "hello" 1000.

Definition draft_hi (l : list TranslatedMessage) : AppState :=
  mkApp (Some ana) (Some lobby) l false "hi" None.

(** ** The listener registry of the sync adapter ([ChatSync], chatSync.ts)

    A handler is a function and counts by its reference, here a number.
    [handlers] is a JavaScript [Set]: it iterates in the order of insertion
    and holds a value once.  The channel the adapter holds is known by the
    room it was opened for. *)

Definition Handler : Type := nat.

Record ChatSync := mkSync {
  roomChannel : option string;
  handlers : list Handler;
  systemHandlers : list Handler
}.

(** [Set.prototype.add] and [Set.prototype.delete] *)
Definition set_add (h : Handler) (l : list Handler) : list Handler :=
  if existsb (Nat.eqb h) l then l else l ++ [h].

Definition set_delete (h : Handler) (l : list Handler) : list Handler :=
  List.filter (fun x => negb (Nat.eqb x h)) l.

(** The adapter as its constructor leaves it. *)
Definition chatSync_new : ChatSync := mkSync None [] [].

(** [connect].  With no channel held the call runs to its end at once and
    stores the channel of the room.  With a channel held it asks that
    channel to unsubscribe and waits: nothing is stored by the call itself,
    and when the wait is over ([connect_resumed]) the channel of the room
    is stored, whatever was called meanwhile. *)
Definition connect (roomId : string) (c : ChatSync) : ChatSync :=
  match roomChannel c with
  | None => mkSync (Some roomId) (handlers c) (systemHandlers c)
  | Some _ => c
  end.

Definition connect_resumed (roomId : string) (c : ChatSync) : ChatSync :=
  mkSync (Some roomId) (handlers c) (systemHandlers c).

Definition disconnect (c : ChatSync) : ChatSync :=
  mkSync None [] (systemHandlers c).

Definition onMessage (handler : Handler) (c : ChatSync) : ChatSync :=
  mkSync (roomChannel c) (set_add handler (handlers c)) (systemHandlers c).

(** The function [onMessage] returns: [() => this.handlers.delete(handler)]. *)
Definition unsubscribe (handler : Handler) (c : ChatSync) : ChatSync :=
  mkSync (roomChannel c) (set_delete handler (handlers c)) (systemHandlers c).

Definition onSystemEvent (handler : Handler) (c : ChatSync) : ChatSync :=
  mkSync (roomChannel c) (handlers c) (set_add handler (systemHandlers c)).

Definition unsubscribe_system (handler : Handler) (c : ChatSync) : ChatSync :=
  mkSync (roomChannel c) (handlers c) (set_delete handler (systemHandlers c)).

(** The callback of the room channel for an inserted row: the calls it
    makes, in order, each with the message built from the row. *)
Definition on_insert (c : ChatSync) (dbMsg : DbRow)
    : list (Handler * Message) :=
  map (fun handler => (handler, rowToMessage dbMsg)) (handlers c).

Inductive SyncCall :=
  | CallConnect (roomId : string)
  | CallConnectResumed (roomId : string)
  | CallDisconnect
  | CallOnMessage (handler : Handler)
  | CallUnsubscribe (handler : Handler)
  | CallOnSystemEvent (handler : Handler)
  | CallUnsubscribeSystem (handler : Handler).

Definition sync_call (c : ChatSync) (call : SyncCall) : ChatSync :=
  match call with
  | CallConnect roomId => connect roomId c
  | CallConnectResumed roomId => connect_resumed roomId c
  | CallDisconnect => disconnect c
  | CallOnMessage handler => onMessage handler c
  | CallUnsubscribe handler => unsubscribe handler c
  | CallOnSystemEvent handler => onSystemEvent handler c
  | CallUnsubscribeSystem handler => unsubscribe_system handler c
  end.

Definition sync_calls (c : ChatSync) (calls : list SyncCall) : ChatSync :=
  fold_left sync_call calls c.

(** Whether a handler is registered after [calls], told from the calls
    alone: it is after its [onMessage], it is not after its unsubscribe or
    after a [disconnect], and the other calls leave it as it was. *)
Definition registered_after (handler : Handler) (calls : list SyncCall)
    (before : bool) : bool :=
  fold_left
    (fun b call =>
       match call with
       | CallOnMessage h => b || Nat.eqb h handler
       | CallUnsubscribe h => b && negb (Nat.eqb h handler)
       | CallDisconnect => false
       | _ => b
       end)
    calls before.

(** What the room effect of [App] does to the adapter when a room is
    entered ([initRoom] connects, then the listener is registered) and what
    its cleanup does when the room is left. *)
Definition effect_enter (roomId : string) (processMessage_ref : Handler)
    : list SyncCall :=
  [CallConnect roomId; CallOnMessage processMessage_ref].

Definition effect_cleanup (processMessage_ref : Handler) : list SyncCall :=
  [CallUnsubscribe processMessage_ref; CallDisconnect].

(** Entering the rooms of [rooms] one after the other, leaving each before
    the next is entered. *)
Fixpoint room_visits (processMessage_ref : Handler) (rooms : list string)
    : list SyncCall :=
  match rooms with
  | [] => []
  | [roomId] => effect_enter roomId processMessage_ref
  | roomId :: rest =>
      effect_enter roomId processMessage_ref
      ++ effect_cleanup processMessage_ref
      ++ room_visits processMessage_ref rest
  end.

(** ** Measures and conditions used below *)

(** The number of messages the translation effect still has to serve. *)
Definition awaiting (l : list TranslatedMessage) : nat :=
  length (List.filter is_untranslated l).

(** A message is not shown as being translated once it carries a
    translation. *)
Definition annotation_settled (m : TranslatedMessage) : Prop :=
  translatedText m = None \/ isTranslating m = Some false.

(** The local clock, at a submit, is not behind any timestamp of the list. *)
Definition clock_not_behind (p : Pipeline) (e : Event) : Prop :=
  match e with
  | Submit _ now_ts =>
      Forall (fun m : TranslatedMessage => timestamp m <= now_ts)
             (messages (app p))
  | _ => True
  end.

Definition timestamps (l : list TranslatedMessage) : list Z :=
  map (fun m : TranslatedMessage => timestamp m) l.

Definition db_ids (rows : list DbRow) : list string := map db_id rows.

(** ** Friends and direct rooms (the earlier revision of [App],
    src/unnamed/part_000) *)

(** [[...new Set(l)]]: the values of [l], each once, in the order of their
    first occurrence. *)
Definition str_set_add (x : string) (l : list string) : list string :=
  if existsb (String.eqb x) l then l else l ++ [x].

Definition set_spread (l : list string) : list string :=
  fold_left (fun acc x => str_set_add x acc) l [].

(** The state [handleAddFriend] reads and writes. *)
Record FriendForm := mkForm {
  form_user : option User;
  friendEmailInput : string;
  form_error : option string
}.

Definition with_friends (l : list string) (u : User) : User :=
  mkUser (username u) (email u) (preferredLanguage u) l (friendRequests u)
         (isGuest u).

Definition handleAddFriend (f : FriendForm) : FriendForm :=
  match form_user f with
  | None => f
  | Some currentUser =>
      if String.eqb (trim (friendEmailInput f)) "" then f
      else if String.eqb (friendEmailInput f) (email currentUser)
      then mkForm (form_user f) (friendEmailInput f)
             (Some "You cannot add yourself")
      else if existsb (String.eqb (friendEmailInput f)) (friends currentUser)
      then mkForm (form_user f) (friendEmailInput f) (Some "Already a friend")
      else
        mkForm
          (Some (with_friends
                   (set_spread (friends currentUser ++ [friendEmailInput f]))
                   currentUser))
          "" None
  end.

(** The user types an address and submits the form, for each address of
    [inputs] in turn. *)
Definition add_friends (inputs : list string) (f : FriendForm) : FriendForm :=
  fold_left
    (fun f input =>
       handleAddFriend (mkForm (form_user f) input (form_error f)))
    inputs f.

(** [[a, b].sort()]: the two strings in the default order.  The order used
    here compares bytes; the default order of JavaScript compares UTF-16
    code units, which is the same order for ASCII strings and may differ
    beyond them. *)
Definition sort_pair (a b : string) : string * string :=
  if String.leb a b then (a, b) else (b, a).

Definition is_alnum (c : ascii) : bool :=
  let n := nat_of_ascii c in
  ((48 <=? n) && (n <=? 57) || (65 <=? n) && (n <=? 90)
   || (97 <=? n) && (n <=? 122))%nat.

(** [s.replace(/[^a-zA-Z0-9]/g, '')] *)
Fixpoint keep_alnum (s : string) : string :=
  match s with
  | EmptyString => EmptyString
  | String c s' =>
      if is_alnum c then String c (keep_alnum s') else keep_alnum s'
  end.

(** The room id [startDirectChat] computes. *)
Definition direct_room_id (own_email friendEmail : string) : string :=
  let sorted := sort_pair own_email friendEmail in
  keep_alnum
    (String.append "DM_"
       (String.append (fst sorted) (String.append "_" (snd sorted)))).

Definition startDirectChat (currentUser : option User) (friendEmail : string)
    (currentRoom : option ChatRoom) (messages : list TranslatedMessage)
    : option ChatRoom * list TranslatedMessage :=
  match currentUser with
  | None => (currentRoom, messages)
  | Some u =>
      (Some (mkRoom (direct_room_id (email u) friendEmail) friendEmail
               (Some true)),
       [])
  end.

Fixpoint string_forallb (p : ascii -> bool) (s : string) : bool :=
  match s with
  | EmptyString => true
  | String c s' => p c && string_forallb p s'
  end.

(** * Properties *)

(** ** The stable sort *)

Section StableSortFacts.
Context {A : Type} (key : A -> Z).

Lemma insert_by_perm x l : Permutation (insert_by key x l) (x :: l).
Proof.
  induction l as [|y l IH]; simpl; [reflexivity|].
  destruct (key x <=? key y); [reflexivity|].
  rewrite IH. apply perm_swap.
Qed.

Lemma sort_by_perm l : Permutation (sort_by key l) l.
Proof.
  induction l as [|x l IH]; simpl; [reflexivity|].
  rewrite insert_by_perm. now rewrite IH.
Qed.

Lemma sort_by_In x l : In x (sort_by key l) <-> In x l.
Proof.
  split; apply Permutation_in;
    [apply sort_by_perm | symmetry; apply sort_by_perm].
Qed.

Lemma sort_by_length l : length (sort_by key l) = length l.
Proof. apply Permutation_length, sort_by_perm. Qed.

Lemma insert_by_sorted x l :
  sorted_by key l -> sorted_by key (insert_by key x l).
Proof.
  unfold sorted_by. induction 1 as [|y l Hl IH Hy]; simpl.
  - repeat constructor.
  - destruct (Z.leb_spec (key x) (key y)) as [Hle|Hgt].
    + constructor; [now constructor|].
      constructor; [exact Hle|].
      eapply List.Forall_impl; [|exact Hy]. simpl. intros; lia.
    + constructor; [exact IH|].
      eapply Permutation_Forall; [symmetry; apply insert_by_perm|].
      constructor; [lia | exact Hy].
Qed.

Lemma sort_by_sorted l : sorted_by key (sort_by key l).
Proof.
  induction l as [|x l IH]; simpl; [constructor|].
  now apply insert_by_sorted.
Qed.

(** A stable sort leaves a sorted list as it is. *)
Lemma insert_by_head x l :
  Forall (fun y => key x <= key y) l -> insert_by key x l = x :: l.
Proof.
  destruct 1 as [|y l Hy _]; simpl; [reflexivity|].
  destruct (Z.leb_spec (key x) (key y)); [reflexivity | lia].
Qed.

Lemma sort_by_sorted_id l : sorted_by key l -> sort_by key l = l.
Proof.
  unfold sorted_by. induction 1 as [|x l Hl IH Hx]; simpl; [reflexivity|].
  rewrite IH. now apply insert_by_head.
Qed.

(** In a sorted list no element of a prefix has a larger key than an
    element of the rest. *)
Lemma sorted_by_firstn_skipn n l :
  sorted_by key l ->
  Forall (fun a => Forall (fun b => key a <= key b) (skipn n l))
         (firstn n l).
Proof.
  unfold sorted_by. intros Hl. revert n.
  induction Hl as [|x l Hl IH Hx]; intros [|n]; simpl; try constructor.
  - apply List.Forall_forall. intros b Hb.
    rewrite List.Forall_forall in Hx. apply Hx.
    rewrite <- (firstn_skipn n l). apply in_or_app. now right.
  - apply IH.
Qed.

Lemma sorted_by_firstn n l : sorted_by key l -> sorted_by key (firstn n l).
Proof.
  unfold sorted_by. intros Hl. revert n.
  induction Hl as [|x l Hl IH Hx]; intros [|n]; simpl; try constructor.
  - apply IH.
  - rewrite List.Forall_forall in *. intros b Hb. apply Hx.
    rewrite <- (firstn_skipn n l). apply in_or_app. now left.
Qed.
End StableSortFacts.

(** ** The sync adapter *)

Lemma sorted_by_map {A B} (f : A -> B) (key : B -> Z) (l : list A) :
  sorted_by (fun a => key (f a)) l -> sorted_by key (map f l).
Proof.
  unfold sorted_by. induction 1 as [|x l Hl IH Hx]; simpl; constructor.
  - exact IH.
  - rewrite List.Forall_forall in *. intros b Hb.
    apply in_map_iff in Hb as (a & <- & Ha). now apply Hx.
Qed.

(** C1, as the code has it: for every room the store serves, [fetchHistory]
    returns the rows of the room with the earliest creation times, at most 50
    of them, as messages in ascending order of timestamp; every row of the
    room that is left out was created no earlier than any row returned. *)
Theorem fetchHistory_earliest_50 (table : list DbRow) (roomId : string) :
  exists kept dropped,
    fetchHistory (Serving table) roomId = inl (map rowToMessage kept) /\
    Permutation (kept ++ dropped) (q_eq_room_id roomId table) /\
    length kept = Nat.min 50 (length (q_eq_room_id roomId table)) /\
    sorted_by timestamp (map rowToMessage kept) /\
    Forall (fun k => Forall (fun d => created_at k <= created_at d) dropped)
           kept.
Proof.
  set (rows := q_order_created_at_asc (q_eq_room_id roomId table)).
  exists (firstn 50 rows), (skipn 50 rows).
  assert (Hs : sorted_by created_at rows) by apply sort_by_sorted.
  repeat split.
  - rewrite firstn_skipn. apply sort_by_perm.
  - rewrite length_firstn. unfold rows, q_order_created_at_asc.
    now rewrite sort_by_length.
  - apply sorted_by_map. simpl. now apply sorted_by_firstn.
  - now apply sorted_by_firstn_skipn.
Qed.

(** C1, as stated, fails: in a room of 51 rows created at times 1 to 51 the
    result is not the 50 rows created last; the row created last is left out
    and the row created first is returned. *)
Lemma fetchHistory_not_most_recent :
  (50 < length (q_eq_room_id "lobby" busy_table))%nat /\
  fetchHistory (Serving busy_table) "lobby"
    <> inl (map rowToMessage (most_recent 50 "lobby" busy_table)) /\
  (exists msgs,
     fetchHistory (Serving busy_table) "lobby" = inl msgs /\
     existsb (fun m => timestamp m =? 51) msgs = false /\
     existsb (fun m => timestamp m =? 1) msgs = true).
Proof.
  split; [vm_compute; lia|]. split.
  - vm_compute. intros H. discriminate H.
  - eexists. split; [reflexivity|]. split; vm_compute; reflexivity.
Qed.

(** ** Lists of messages *)

Lemma ids_app l1 l2 : ids (l1 ++ l2) = ids l1 ++ ids l2.
Proof. apply map_app. Qed.

Lemma ids_perm l1 l2 : Permutation l1 l2 -> Permutation (ids l1) (ids l2).
Proof. apply Permutation_map. Qed.

Lemma ids_sort l : Permutation (ids (sort_by_timestamp l)) (ids l).
Proof. apply ids_perm, sort_by_perm. Qed.

Lemma In_ids (m : TranslatedMessage) l : In m l -> In (id m) (ids l).
Proof. intros H. unfold ids. apply in_map_iff. now exists m. Qed.

Lemma has_id_In i l : has_id i l = true <-> In i (ids l).
Proof.
  unfold has_id, ids. rewrite existsb_exists, in_map_iff.
  split; intros (m & H1 & H2); exists m.
  - apply String.eqb_eq in H2. now split.
  - split; [assumption | now apply String.eqb_eq].
Qed.

Lemma has_id_false i l : has_id i l = false <-> ~ In i (ids l).
Proof.
  rewrite <- has_id_In. destruct (has_id i l); split; congruence.
Qed.

(** What [findIndex] finds: the first position that satisfies the test. *)
Lemma findIndex_Some {A} (p : A -> bool) l i :
  findIndex p l = Some i ->
  exists l1 x l2,
    l = l1 ++ x :: l2 /\ length l1 = i /\ p x = true /\
    forallb (fun y => negb (p y)) l1 = true.
Proof.
  revert i. induction l as [|a l IH]; simpl; intros i H; [discriminate|].
  destruct (p a) eqn:Hpa.
  - injection H as <-. now exists [], a, l.
  - destruct (findIndex p l) as [j|]; [|discriminate].
    injection H as <-.
    destruct (IH j eq_refl) as (l1 & x & l2 & -> & Hlen & Hx & Hl1).
    exists (a :: l1), x, l2. simpl. rewrite Hpa, Hl1, Hlen. auto.
Qed.

Lemma findIndex_None {A} (p : A -> bool) l :
  findIndex p l = None -> forall x, In x l -> p x = false.
Proof.
  induction l as [|a l IH]; simpl; intros H x Hx; [contradiction|].
  destruct (p a) eqn:Hpa; [discriminate|].
  destruct (findIndex p l); [discriminate|].
  destruct Hx as [<-|Hx]; auto.
Qed.

(** [newList[i] = y] at a position inside the list. *)
Lemma insert_middle {A} (l1 l2 : list A) x y :
  <[length l1 := y]> (l1 ++ x :: l2) = l1 ++ y :: l2.
Proof. induction l1 as [|a l1 IH]; simpl; [reflexivity | now rewrite IH]. Qed.

Lemma find_first {A} (p : A -> bool) l m :
  List.find p l = Some m ->
  exists before after,
    l = before ++ m :: after /\ p m = true /\
    forallb (fun x => negb (p x)) before = true.
Proof.
  induction l as [|a l IH]; simpl; intros H; [discriminate|].
  destruct (p a) eqn:Hpa.
  - injection H as <-. now exists [], l.
  - destruct (IH H) as (b & c & -> & Hm & Hb).
    exists (a :: b), c. simpl. rewrite Hpa, Hb. auto.
Qed.

(** ** Admission from the live channel *)

Lemma processMessage_processed user msg prev :
  processed user msg prev (processMessage (Some user) msg prev).
Proof.
  unfold processMessage.
  destruct (has_id (id msg) prev) eqn:Hid.
  - apply Discarded. now apply has_id_In.
  - apply has_id_false in Hid.
    destruct (findIndex (is_temp_match msg) prev) as [i|] eqn:Hfind.
    + apply findIndex_Some in Hfind as (l1 & p & l2 & -> & <- & Hp & Hl1).
      rewrite insert_middle. now apply Replaced with (p := p).
    + apply Appended; [assumption|]. now apply findIndex_None.
Qed.

Lemma processMessage_signed_out msg prev : processMessage None msg prev = prev.
Proof. reflexivity. Qed.

Lemma returns_prev_same userRef msg prev :
  returns_prev userRef msg prev = true -> processMessage userRef msg prev = prev.
Proof.
  destruct userRef as [user|]; simpl; [|reflexivity].
  unfold processMessage. now intros ->.
Qed.

Lemma processMessage_NoDup userRef msg prev :
  List.NoDup (ids prev) -> List.NoDup (ids (processMessage userRef msg prev)).
Proof.
  intros Hnd. destruct userRef as [user|]; [|exact Hnd].
  destruct (processMessage_processed user msg prev)
    as [Hin | l1 p l2 Hnin -> Hp Hl1 | Hnin Hnone]; [exact Hnd| |].
  - eapply Permutation_NoDup; [symmetry; apply ids_sort|].
    rewrite ids_app in *. simpl in *.
    apply NoDup_remove in Hnd as [Hnd Hp'].
    eapply Permutation_NoDup; [apply Permutation_middle|].
    constructor; [|exact Hnd].
    intros Hin. apply Hnin. apply in_app_or in Hin.
    apply in_or_app. destruct Hin; [now left | right; now right].
  - eapply Permutation_NoDup; [symmetry; apply ids_sort|].
    rewrite ids_app. simpl.
    eapply Permutation_NoDup; [apply Permutation_cons_append|].
    constructor; assumption.
Qed.

Lemma processMessage_has_id user msg prev :
  In (id msg) (ids (processMessage (Some user) msg prev)).
Proof.
  destruct (processMessage_processed user msg prev)
    as [Hin | l1 p l2 Hnin -> Hp Hl1 | Hnin Hnone]; [exact Hin| |];
    (eapply Permutation_in; [symmetry; apply ids_sort|]);
    rewrite ids_app; apply in_or_app; right; now left.
Qed.

Lemma processMessage_idempotent userRef msg prev :
  processMessage userRef msg (processMessage userRef msg prev)
  = processMessage userRef msg prev.
Proof.
  destruct userRef as [user|]; [|reflexivity].
  apply returns_prev_same. simpl. apply has_id_In, processMessage_has_id.
Qed.

(** ** Admission from history *)

Lemma map_get_set k v k' m :
  map_get k' (map_set k v m) = if String.eqb k k' then Some v else map_get k' m.
Proof.
  induction m as [|[k0 v0] m IH]; simpl.
  - reflexivity.
  - destruct (String.eqb_spec k0 k) as [->|Hne]; simpl.
    + destruct (String.eqb k k'); reflexivity.
    + rewrite IH. destruct (String.eqb_spec k0 k') as [->|Hne'].
      * destruct (String.eqb_spec k k'); congruence.
      * reflexivity.
Qed.

Lemma map_keys_set k v m :
  map_keys (map_set k v m)
  = if existsb (String.eqb k) (map_keys m) then map_keys m
    else map_keys m ++ [k].
Proof.
  induction m as [|[k0 v0] m IH]; simpl; [reflexivity|].
  rewrite (String.eqb_sym k k0).
  destruct (String.eqb k0 k); simpl; [reflexivity|].
  rewrite IH. now destruct (existsb (String.eqb k) (map_keys m)).
Qed.

Lemma map_set_NoDup k v m :
  List.NoDup (map_keys m) -> List.NoDup (map_keys (map_set k v m)).
Proof.
  intros H. rewrite map_keys_set.
  destruct (existsb (String.eqb k) (map_keys m)) eqn:E; [exact H|].
  eapply Permutation_NoDup; [apply Permutation_cons_append|].
  constructor; [|exact H]. intros Hin.
  assert (existsb (String.eqb k) (map_keys m) = true); [|congruence].
  apply existsb_exists. exists k. split; [exact Hin | apply String.eqb_refl].
Qed.

Lemma map_set_keyed (v : TranslatedMessage) m : keyed_by_id m -> keyed_by_id (map_set (id v) v m).
Proof.
  unfold keyed_by_id. induction 1 as [|[k0 v0] m Hk Hm IH]; simpl.
  - now repeat constructor.
  - destruct (String.eqb_spec k0 (id v)) as [->|Hne]; constructor; auto.
Qed.

Lemma set_all_invariant l unique :
  List.NoDup (map_keys unique) -> keyed_by_id unique ->
  List.NoDup (map_keys (set_all l unique)) /\ keyed_by_id (set_all l unique).
Proof.
  revert unique. induction l as [|x l IH]; simpl; intros unique Hnd Hk.
  - now split.
  - apply IH; [now apply map_set_NoDup | now apply map_set_keyed].
Qed.

Lemma map_get_set_all k l unique :
  map_get k (set_all l unique)
  = match last_with_id k l with
    | Some v => Some v
    | None => map_get k unique
    end.
Proof.
  revert unique. induction l as [|x l IH]; simpl; intros unique.
  - reflexivity.
  - rewrite IH, map_get_set.
    destruct (last_with_id k l); [reflexivity|].
    now destruct (String.eqb (id x) k).
Qed.

Lemma map_get_In k v m : map_get k m = Some v -> In (k, v) m.
Proof.
  induction m as [|[k0 v0] m IH]; simpl; [discriminate|].
  destruct (String.eqb_spec k0 k) as [->|Hne]; intros H.
  - injection H as ->. now left.
  - right. now apply IH.
Qed.

Lemma In_map_get k v m :
  List.NoDup (map_keys m) -> In (k, v) m -> map_get k m = Some v.
Proof.
  induction m as [|[k0 v0] m IH]; simpl; intros Hnd Hin; [contradiction|].
  apply NoDup_cons_iff in Hnd as [Hk0 Hnd].
  destruct Hin as [Heq|Hin].
  - injection Heq as -> ->. now rewrite String.eqb_refl.
  - destruct (String.eqb_spec k0 k) as [->|Hne]; [|now apply IH].
    exfalso. apply Hk0. unfold map_keys. apply in_map_iff.
    now exists (k, v).
Qed.

Lemma last_with_id_Some k l v :
  last_with_id k l = Some v -> In v l /\ id v = k.
Proof.
  induction l as [|x l IH]; simpl; [discriminate|].
  destruct (last_with_id k l) as [w|].
  - intros H. injection H as ->. destruct (IH eq_refl). auto.
  - destruct (String.eqb_spec (id x) k) as [<-|]; [|discriminate].
    intros H. injection H as <-. auto.
Qed.

Lemma last_with_id_app k l1 l2 :
  last_with_id k (l1 ++ l2)
  = match last_with_id k l2 with
    | Some v => Some v
    | None => last_with_id k l1
    end.
Proof.
  induction l1 as [|x l1 IH]; simpl.
  - now destruct (last_with_id k l2).
  - rewrite IH. now destruct (last_with_id k l2).
Qed.

Lemma last_with_id_unique l (m : TranslatedMessage) :
  List.NoDup (ids l) -> In m l -> last_with_id (id m) l = Some m.
Proof.
  induction l as [|x l IH]; simpl; intros Hnd Hin; [contradiction|].
  apply NoDup_cons_iff in Hnd as [Hx Hnd].
  destruct Hin as [->|Hin].
  - destruct (last_with_id (id m) l) as [w|] eqn:E.
    + apply last_with_id_Some in E as [Hw Hid]. exfalso. apply Hx.
      rewrite <- Hid. now apply In_ids.
    + now rewrite String.eqb_refl.
  - now rewrite IH.
Qed.

Lemma ids_map_values m : keyed_by_id m -> ids (map_values m) = map_keys m.
Proof.
  unfold keyed_by_id, ids, map_values, map_keys.
  induction 1 as [|[k v] m Hk Hm IH]; simpl in *; [reflexivity|].
  now rewrite IH, Hk.
Qed.

Lemma admitHistory_NoDup history prev :
  List.NoDup (ids (admitHistory history prev)).
Proof.
  unfold admitHistory.
  eapply Permutation_NoDup; [symmetry; apply ids_sort|].
  destruct (set_all_invariant (map asTranslated history ++ prev) [])
    as [Hnd Hk]; [constructor | constructor |].
  now rewrite ids_map_values.
Qed.

(** The messages of the merged list are the values of the map: for each id
    the last element of [history ++ prev] that carries it. *)
Lemma admitHistory_In history prev (x : TranslatedMessage) :
  In x (admitHistory history prev) <->
  last_with_id (id x) (map asTranslated history ++ prev) = Some x.
Proof.
  unfold admitHistory, sort_by_timestamp. rewrite sort_by_In.
  set (l := map asTranslated history ++ prev).
  destruct (set_all_invariant l []) as [Hnd Hk]; [constructor|constructor|].
  unfold map_values. rewrite in_map_iff. split.
  - intros ([k v] & <- & Hin). simpl.
    unfold keyed_by_id in Hk. rewrite List.Forall_forall in Hk.
    specialize (Hk _ Hin). simpl in Hk. subst k.
    apply In_map_get in Hin; [|exact Hnd].
    rewrite map_get_set_all in Hin.
    destruct (last_with_id (id v) l); [exact Hin | discriminate].
  - intros H. exists (id x, x). split; [reflexivity|].
    apply map_get_In. rewrite map_get_set_all. now rewrite H.
Qed.

Lemma last_with_id_found i l :
  In i (ids l) -> exists x, last_with_id i l = Some x.
Proof.
  induction l as [|y l IH]; simpl; intros Hin; [contradiction|].
  destruct (last_with_id i l) as [w|] eqn:E; [now exists w|].
  destruct Hin as [Hy|Hin].
  - exists y. now rewrite Hy, String.eqb_refl.
  - destruct (IH Hin) as (x & Hx). discriminate.
Qed.

(** The ids of the merged list are those of the fetched rows and those in
    memory. *)
Lemma admitHistory_ids history prev i :
  In i (ids (admitHistory history prev)) <->
  In i (map id history) \/ In i (ids prev).
Proof.
  assert (Hids : ids (map asTranslated history ++ prev)
                 = map id history ++ ids prev).
  { rewrite ids_app. f_equal. unfold ids. now rewrite map_map. }
  rewrite <- in_app_iff, <- Hids. split.
  - unfold ids at 1. rewrite in_map_iff. intros (x & <- & Hx).
    apply admitHistory_In, last_with_id_Some in Hx as [Hx _].
    now apply In_ids.
  - intros Hin. destruct (last_with_id_found _ _ Hin) as (x & Hx).
    destruct (last_with_id_Some _ _ _ Hx) as [_ <-].
    apply In_ids. now apply admitHistory_In.
Qed.

Lemma processMessage_ids_from userRef msg prev i :
  In i (ids (processMessage userRef msg prev)) ->
  In i (ids prev) \/ i = id msg.
Proof.
  destruct userRef as [user|]; [|now left].
  destruct (processMessage_processed user msg prev)
    as [Hin | l1 p l2 _ -> Hp Hl1 | _ Hnone]; [now left | |];
    intros Hi; (eapply Permutation_in in Hi; [|apply ids_sort]);
    rewrite ids_app in *; simpl in *;
    apply in_app_or in Hi as [Hi|[Hi|Hi]]; auto.
  - left. apply in_or_app. now left.
  - left. apply in_or_app. right. now right.
  - contradiction.
Qed.

(** An id that is not of the temporary form stays in the list through a
    live admission: only placeholders are replaced. *)
Lemma processMessage_keeps_server_ids userRef msg prev i :
  String.prefix "temp-" i = false ->
  In i (ids prev) -> In i (ids (processMessage userRef msg prev)).
Proof.
  intros Hi Hin. destruct userRef as [user|]; [|exact Hin].
  destruct (processMessage_processed user msg prev)
    as [_ | l1 p l2 _ -> Hp Hl1 | _ Hnone]; [exact Hin | |];
    (eapply Permutation_in; [symmetry; apply ids_sort|]);
    rewrite ids_app in *; simpl in *.
  - apply in_app_or in Hin as [Hin|[Hin|Hin]];
      apply in_or_app; [now left | | right; now right].
    exfalso. unfold is_temp_match in Hp.
    apply andb_true_iff in Hp as [Hp _]. apply andb_true_iff in Hp as [Hp _].
    rewrite Hin in Hp. congruence.
  - apply in_or_app. now left.
Qed.

Lemma apply_admission_admits user l a i :
  In i (admitted_ids a) -> In i (ids (apply_admission (Some user) l a)).
Proof.
  destruct a as [history|msg]; simpl.
  - intros Hi. apply admitHistory_ids. now left.
  - intros [<-|[]]. apply processMessage_has_id.
Qed.

Lemma apply_admission_keeps userRef l a i :
  String.prefix "temp-" i = false ->
  In i (ids l) -> In i (ids (apply_admission userRef l a)).
Proof.
  destruct a as [history|msg]; simpl; intros Hi Hin.
  - apply admitHistory_ids. now right.
  - now apply processMessage_keeps_server_ids.
Qed.

Lemma apply_admission_ids_from userRef l a i :
  In i (ids (apply_admission userRef l a)) ->
  In i (ids l) \/ In i (admitted_ids a).
Proof.
  destruct a as [history|msg]; simpl; intros Hi.
  - apply admitHistory_ids in Hi. tauto.
  - apply processMessage_ids_from in Hi as [Hi| ->]; [now left|].
    right. now left.
Qed.

Lemma admit_all_keeps userRef ops l i :
  String.prefix "temp-" i = false ->
  In i (ids l) -> In i (ids (admit_all userRef ops l)).
Proof.
  intros Hi. revert l. induction ops as [|a ops IH]; simpl; intros l Hin;
    [exact Hin|].
  now apply IH, apply_admission_keeps.
Qed.

Lemma admit_all_NoDup userRef ops l :
  List.NoDup (ids l) -> List.NoDup (ids (admit_all userRef ops l)).
Proof.
  revert l. induction ops as [|[history|msg] ops IH]; simpl; intros l Hnd.
  - exact Hnd.
  - apply IH, admitHistory_NoDup.
  - apply IH, processMessage_NoDup, Hnd.
Qed.

(** C4: from a list in which every id occurs once, every sequence of
    admissions from history and from the live channel, with ids that may
    overlap, gives a list in which every id occurs exactly once and which
    holds no id but those it had and those admitted.  While a viewer is
    signed in and the ids of the persisted messages are not of the temporary
    form, every admitted id is in the list, exactly once.  Admitting a
    message from the live channel a second time changes nothing. *)
Theorem admissions_keep_ids_unique userRef ops l0 :
  List.NoDup (ids l0) ->
  let l := admit_all userRef ops l0 in
  (forall i, In i (ids l) -> count_occ string_dec (ids l) i = 1%nat) /\
  (forall i, In i (ids l) ->
     In i (ids l0) \/ exists a, In a ops /\ In i (admitted_ids a)) /\
  (forall user, userRef = Some user ->
     (forall a i, In a ops -> In i (admitted_ids a) ->
        String.prefix "temp-" i = false) ->
     forall a i, In a ops -> In i (admitted_ids a) ->
       count_occ string_dec (ids l) i = 1%nat) /\
  (forall msg,
     processMessage userRef msg (processMessage userRef msg l)
     = processMessage userRef msg l).
Proof.
  intros Hnd l.
  assert (Hunique : forall i, In i (ids l) ->
                      count_occ string_dec (ids l) i = 1%nat).
  { apply NoDup_count_occ'. now apply admit_all_NoDup. }
  split; [exact Hunique|]. split; [|split].
  - subst l. clear Hunique Hnd. revert l0.
    induction ops as [|a ops IH]; simpl; intros l0 i Hi; [now left|].
    apply IH in Hi as [Hi|(b & Hb & Hi)].
    + apply apply_admission_ids_from in Hi as [Hi|Hi]; [now left|].
      right. exists a. auto.
    + right. exists b. auto.
  - intros user -> Hserver a i Ha Hi. apply Hunique.
    subst l. clear Hunique Hnd. revert l0.
    induction ops as [|b ops IH]; simpl; intros l0; [contradiction|].
    destruct Ha as [->|Ha].
    + apply admit_all_keeps.
      * apply (Hserver a i); [now left | exact Hi].
      * now apply apply_admission_admits.
    + apply IH; [|exact Ha]. intros a' i' Ha' Hi'.
      apply (Hserver a' i'); [now right | exact Hi'].
  - intros msg. apply processMessage_idempotent.
Qed.

Lemma admissions_keep_ids_unique_witness :
  let ops := [FromHistory [hola]; FromLive hola; FromLive adios;
              FromHistory [adios; hola]; FromLive adios] in
  let l := admit_all (Some ana) ops [] in
  List.NoDup (ids []) /\
  (forall a i, In a ops -> In i (admitted_ids a) ->
     String.prefix "temp-" i = false) /\
  ids l = ["1"; "2"] /\
  (forall i, In i (ids l) -> count_occ string_dec (ids l) i = 1%nat) /\
  (forall a i, In a ops -> In i (admitted_ids a) ->
     count_occ string_dec (ids l) i = 1%nat) /\
  (forall msg,
     processMessage (Some ana) msg (processMessage (Some ana) msg l)
     = processMessage (Some ana) msg l).
Proof.
  set (ops := [FromHistory [hola]; FromLive hola; FromLive adios;
               FromHistory [adios; hola]; FromLive adios]).
  assert (Hnd : List.NoDup (ids [])) by constructor.
  assert (Hserver : forall a i, In a ops -> In i (admitted_ids a) ->
                      String.prefix "temp-" i = false).
  { intros a i Ha Hi. unfold ops in Ha. simpl in Ha.
    repeat (destruct Ha as [<-|Ha]; [simpl in Hi; intuition (subst; reflexivity)|]).
    contradiction. }
  destruct (admissions_keep_ids_unique (Some ana) ops [] Hnd)
    as (Hunique & _ & Hpresent & Hidem).
  cbv zeta. split; [exact Hnd|]. split; [exact Hserver|].
  split; [reflexivity|]. split; [exact Hunique|].
  split; [exact (Hpresent ana eq_refl Hserver) | exact Hidem].
Defined.

(** C5, as the code has it: when a persisted message whose id is not yet in
    the list arrives on the live channel, the ids of the list are unique, and
    some message of the list has an id starting with "temp-" and the same
    senderEmail and text, then the first such placeholder is replaced by the
    persisted message: the new list holds the other messages and the
    persisted one, holds the server id exactly once, and no longer holds the
    id of the placeholder. *)
Theorem confirmed_placeholder_replaced user msg prev :
  List.NoDup (ids prev) ->
  ~ In (id msg) (ids prev) ->
  (exists m, In m prev /\ is_temp_match msg m = true) ->
  exists l1 p l2,
    prev = l1 ++ p :: l2 /\
    is_temp_match msg p = true /\
    forallb (fun y => negb (is_temp_match msg y)) l1 = true /\
    Permutation (processMessage (Some user) msg prev)
                (l1 ++ newMessage user msg :: l2) /\
    count_occ string_dec (ids (processMessage (Some user) msg prev)) (id msg)
    = 1%nat /\
    ~ In (id p) (ids (processMessage (Some user) msg prev)).
Proof.
  intros Hnd Hnew (m & Hm & Hmatch).
  assert (Hcount :
    count_occ string_dec (ids (processMessage (Some user) msg prev)) (id msg)
    = 1%nat).
  { apply NoDup_count_occ'; [now apply processMessage_NoDup|].
    apply processMessage_has_id. }
  revert Hcount.
  destruct (processMessage_processed user msg prev)
    as [Hin | l1 p l2 _ -> Hp Hl1 | _ Hnone]; intros Hcount.
  - contradiction.
  - exists l1, p, l2. repeat split; try assumption.
    + apply sort_by_perm.
    + intros Hin.
      eapply Permutation_in in Hin; [|apply ids_sort].
      rewrite ids_app in *. simpl in *.
      apply NoDup_remove_2 in Hnd.
      apply in_app_or in Hin as [Hin|[Heq|Hin]].
      * apply Hnd, in_or_app. now left.
      * apply Hnew, in_or_app. right. left. now rewrite <- Heq.
      * apply Hnd, in_or_app. now right.
  - rewrite (Hnone m Hm) in Hmatch. discriminate.
Qed.

Lemma confirmed_placeholder_replaced_witness :
  let prev := [hi_pending] in
  List.NoDup (ids prev) /\
  ~ In (id hi_confirmed) (ids prev) /\
  (exists m, In m prev /\ is_temp_match hi_confirmed m = true) /\
  exists l1 p l2,
    prev = l1 ++ p :: l2 /\
    is_temp_match hi_confirmed p = true /\
    forallb (fun y => negb (is_temp_match hi_confirmed y)) l1 = true /\
    Permutation (processMessage (Some ana) hi_confirmed prev)
                (l1 ++ newMessage ana hi_confirmed :: l2) /\
    count_occ string_dec (ids (processMessage (Some ana) hi_confirmed prev))
      (id hi_confirmed) = 1%nat /\
    ~ In (id p) (ids (processMessage (Some ana) hi_confirmed prev)).
Proof.
  assert (Hnd : List.NoDup (ids [hi_pending])).
  { constructor; [intros []|constructor]. }
  assert (Hnew : ~ In (id hi_confirmed) (ids [hi_pending])).
  { simpl. intros [H|[]]. discriminate H. }
  assert (Hex : exists m, In m [hi_pending]
                          /\ is_temp_match hi_confirmed m = true).
  { exists hi_pending. split; [now left | reflexivity]. }
  repeat split; try assumption.
  exact (confirmed_placeholder_replaced ana hi_confirmed [hi_pending]
           Hnd Hnew Hex).
Defined.

(** C5, as stated, fails: the list holds row 42 and a placeholder with the
    sender and text of row 42; when row 42 arrives again the list is left as
    it is, and the id of the placeholder is still in it. *)
Lemma known_id_keeps_placeholder :
  let prev := [newMessage ana hi_confirmed; hi_pending] in
  In hi_pending prev /\
  String.prefix "temp-" (id hi_pending) = true /\
  senderEmail hi_pending = senderEmail hi_confirmed /\
  text hi_pending = text hi_confirmed /\
  processMessage (Some ana) hi_confirmed prev = prev /\
  In (id hi_pending) (ids (processMessage (Some ana) hi_confirmed prev)).
Proof.
  simpl. repeat split; auto.
Qed.

(** Two sends of the same text within one millisecond share a temporary id;
    the confirming row replaces the first, and the id stays in the list. *)
Lemma shared_temporary_id_stays :
  ids (processMessage (Some ana) hi_confirmed [hi_pending; hi_pending])
  = ["42"; "temp-1010"].
Proof. reflexivity. Qed.

(** C10: when history is merged with the messages in memory, a message in
    memory (the ids in memory being unique) is in the merged list as it was,
    and it is the only message of the merged list with its id: the fetched
    row with that id is dropped, the annotations are kept. *)
Theorem history_merge_keeps_in_memory history prev (m : TranslatedMessage) :
  List.NoDup (ids prev) ->
  In m prev ->
  In m (admitHistory history prev) /\
  (forall x : TranslatedMessage,
     In x (admitHistory history prev) -> id x = id m -> x = m).
Proof.
  intros Hnd Hin.
  assert (Hlast : last_with_id (id m) (map asTranslated history ++ prev)
                  = Some m).
  { rewrite last_with_id_app. now rewrite last_with_id_unique. }
  split.
  - now apply admitHistory_In.
  - intros x Hx Hid. apply admitHistory_In in Hx.
    rewrite Hid, Hlast in Hx. now injection Hx.
Qed.

Lemma history_merge_keeps_in_memory_witness :
  List.NoDup (ids [hola_translated]) /\
  In hola_translated [hola_translated] /\
  In hola_translated (admitHistory [hola; adios] [hola_translated]) /\
  (forall x : TranslatedMessage,
     In x (admitHistory [hola; adios] [hola_translated]) ->
     id x = id hola_translated -> x = hola_translated).
Proof.
  assert (Hnd : List.NoDup (ids [hola_translated])).
  { constructor; [intros []|constructor]. }
  assert (Hin : In hola_translated [hola_translated]) by now left.
  repeat split; try assumption;
    apply (history_merge_keeps_in_memory [hola; adios] [hola_translated]
             hola_translated Hnd Hin).
Defined.

(** ** Annotation at admission *)

(** What admission from the live channel attaches to a message. *)
Lemma live_admission_marks_eligible user msg prev :
  ~ In (id msg) (ids prev) ->
  In (mkTM msg None (Some (eligible user msg)))
     (processMessage (Some user) msg prev).
Proof.
  intros Hnew.
  destruct (processMessage_processed user msg prev)
    as [Hin | l1 p l2 _ -> Hp Hl1 | _ Hnone]; [contradiction| |];
    apply sort_by_In, in_or_app; right; now left.
Qed.

(** What admission from history attaches to a fetched row: nothing. *)
Lemma history_admission_unmarked history (x : TranslatedMessage) :
  In x (admitHistory history []) ->
  isTranslating x = None /\ translatedText x = None.
Proof.
  intros Hx. apply admitHistory_In in Hx.
  apply last_with_id_Some in Hx as [Hx _].
  rewrite app_nil_r in Hx. apply in_map_iff in Hx as (m & <- & _).
  now split.
Qed.

(** C2 at the scenario of the specification: history returns message 1,
    "hola" in Spanish from another user, for a viewer whose language is
    English.  The message is eligible; admitted from history it carries no
    [isTranslating] and the translation effect starts nothing, admitted from
    the live channel it carries [isTranslating = true]. *)
Lemma history_admission_skips_translation :
  eligible ana hola = true /\
  admitHistory [hola] [] = [mkTM hola None None] /\
  translation_effect languages
    (initRoom_settle (inl [hola]) (initRoom_start (draft_hi []))) = None /\
  processMessage (Some ana) hola [] = [mkTM hola None (Some true)].
Proof. repeat split. Qed.

(** ** Order *)

Lemma processMessage_sorted userRef msg prev :
  sorted_by_timestamp prev ->
  sorted_by_timestamp (processMessage userRef msg prev).
Proof.
  intros Hs. destruct userRef as [user|]; [|exact Hs].
  destruct (processMessage_processed user msg prev); [exact Hs| |];
    apply sort_by_sorted.
Qed.

Lemma admitHistory_sorted history prev :
  sorted_by_timestamp (admitHistory history prev).
Proof. apply sort_by_sorted. Qed.

(** C6 at an input where the claim fails: the list holds a message that the
    store stamped with time 1000 and is sorted; the viewer sends "hi" when
    the local clock reads 500.  The optimistic message is put at the end
    and the list is no longer in timestamp order. *)
Lemma optimistic_send_breaks_order :
  let s := draft_hi (processMessage (Some ana) stamped_1000 []) in
  let s' := fst (sendMessage_start 500 500 s) in
  sorted_by_timestamp (messages s) /\
  map (fun m : TranslatedMessage => timestamp m) (messages s') = [1000; 500] /\
  ~ sorted_by_timestamp (messages s').
Proof.
  split; [|split].
  - apply processMessage_sorted. constructor.
  - reflexivity.
  - intros H. apply StronglySorted_inv in H as [_ H].
    apply Forall_inv in H. vm_compute in H. now apply H.
Qed.

(** ** Translation failure *)

Lemma lookup_map {A B} (f : A -> B) (l : list A) (i : nat) (x : A) :
  l !! i = Some x -> map f l !! i = Some (f x).
Proof.
  revert i. induction l as [|a l IH]; intros [|i]; simpl; try discriminate.
  - now intros [= ->].
  - apply IH.
Qed.

Lemma translateText_failure api_key gen txt target source :
  translation_fails api_key gen ->
  translateText api_key gen txt target source = inl txt \/
  exists e, translateText api_key gen txt target source = inr e.
Proof.
  unfold translateText. intros [Hkey|[e ->]].
  - rewrite Hkey. right. eauto.
  - destruct (truthy_str api_key); simpl; eauto.
Qed.

(** C7: when a translation attempt fails (credentials missing, or the
    gateway rejects the request), the continuation of [doTranslation]
    returns normally; a message of the list with the id and text of the
    request has afterwards its own text as [translatedText] and
    [isTranslating = false]; the error state is untouched. *)
Theorem translation_failure_falls_back req api_key gen s i
    (m : TranslatedMessage) :
  translation_fails api_key gen ->
  messages s !! i = Some m ->
  id m = id (untranslated req) ->
  text m = text (untranslated req) ->
  exists s',
    doTranslation_settle req
      (translateText api_key gen (text (untranslated req))
         (targetLangName req) (Some (sourceLangName req))) s = inl s' /\
    messages s' !! i = Some (mkTM m (Some (text m)) (Some false)) /\
    error s' = error s /\
    currentUser s' = currentUser s /\
    currentRoom s' = currentRoom s.
Proof.
  intros Hfail Hi Hid Htext.
  assert (Hann :
    map (annotate (id (untranslated req)) (text (untranslated req)))
        (messages s) !! i
    = Some (mkTM m (Some (text m)) (Some false))).
  { rewrite (lookup_map _ _ _ _ Hi). unfold annotate.
    apply String.eqb_eq in Hid. now rewrite Hid, Htext. }
  destruct (translateText_failure api_key gen (text (untranslated req))
              (targetLangName req) (Some (sourceLangName req)) Hfail)
    as [-> | [e ->]]; eexists; (split; [reflexivity|]); simpl; auto.
Qed.

Lemma translation_failure_falls_back_witness :
  let req := mkRequest (newMessage ana hola) "English" "Spanish" in
  let s := draft_hi [newMessage ana hola] in
  translation_fails None (Responds (Some "hello")) /\
  messages s !! 0%nat = Some (newMessage ana hola) /\
  exists s',
    doTranslation_settle req
      (translateText None (Responds (Some "hello")) (text (untranslated req))
         (targetLangName req) (Some (sourceLangName req))) s = inl s' /\
    messages s' !! 0%nat
    = Some (mkTM (newMessage ana hola) (Some (text (newMessage ana hola)))
              (Some false)) /\
    error s' = error s /\
    currentUser s' = currentUser s /\
    currentRoom s' = currentRoom s.
Proof.
  assert (Hfail : translation_fails None (Responds (Some "hello")))
    by (left; reflexivity).
  split; [exact Hfail|]. split; [reflexivity|].
  exact (translation_failure_falls_back
           (mkRequest (newMessage ana hola) "English" "Spanish")
           None (Responds (Some "hello")) (draft_hi [newMessage ana hola])
           0%nat (newMessage ana hola) Hfail eq_refl eq_refl eq_refl).
Defined.

(** ** Optimistic send *)

Lemma filter_out_id t (l : list TranslatedMessage) :
  ~ In t (ids (List.filter
                 (fun m : TranslatedMessage => negb (String.eqb (id m) t)) l)).
Proof.
  unfold ids. rewrite in_map_iff. intros (m & Hid & Hm).
  apply filter_In in Hm as [_ Hm]. apply String.eqb_eq in Hid.
  rewrite Hid in Hm. discriminate.
Qed.

Lemma filter_out_fresh t (l : list TranslatedMessage) :
  ~ In t (ids l) ->
  List.filter (fun m : TranslatedMessage => negb (String.eqb (id m) t)) l = l.
Proof.
  induction l as [|x l IH]; simpl; intros H; [reflexivity|].
  destruct (String.eqb_spec (id x) t) as [Heq|Hne]; simpl.
  - exfalso. apply H. now left.
  - rewrite IH; [reflexivity|]. intros Hin. apply H. now right.
Qed.

Lemma sendMessage_start_pending now_id now_ts s s1 pending :
  sendMessage_start now_id now_ts s = (s1, Some pending) ->
  exists user (optimisticMessage : TranslatedMessage),
    currentUser s = Some user /\
    id optimisticMessage = tempId pending /\
    senderEmail optimisticMessage = email user /\
    text optimisticMessage = inputText s /\
    timestamp optimisticMessage = now_ts /\
    isTranslating optimisticMessage = Some false /\
    translatedText optimisticMessage = None /\
    messages s1 = messages s ++ [optimisticMessage] /\
    textToSubmit pending = inputText s /\
    inputText s1 = "" /\
    currentUser s1 = currentUser s.
Proof.
  unfold sendMessage_start.
  destruct (currentUser s) as [user|] eqn:Huser; [|discriminate].
  destruct (currentRoom s) as [room|]; [|discriminate].
  destruct (String.eqb (trim (inputText s)) ""); [discriminate|].
  intros [= <- <-]. exists user.
  eexists (mkTM (mkMessage _ _ _ _ _ _) _ _). simpl. repeat split.
  exact Huser.
Qed.

(** C8: for an optimistic send, started in state [s], whose persistence
    fails while the component is in state [s2]: the continuation returns
    normally (nothing escapes the [catch]); the temporary id, which the send
    had put in the list, is in the list no more, the other messages are as
    they were in [s2]; the draft is the text that was sent; the error state
    carries the failure; user and room are those of [s2].  If nothing else
    happened in between and the temporary id was new, the list is the one of
    [s]. *)
Theorem failed_send_rolled_back now_id now_ts s s1 pending e s2 :
  sendMessage_start now_id now_ts s = (s1, Some pending) ->
  exists s3,
    sendMessage_settle pending (chatSync_sendMessage (Some e)) s2 = inl s3 /\
    In (tempId pending) (ids (messages s1)) /\
    ~ In (tempId pending) (ids (messages s3)) /\
    messages s3
    = List.filter
        (fun m : TranslatedMessage => negb (String.eqb (id m) (tempId pending)))
        (messages s2) /\
    inputText s3 = inputText s /\
    error s3
    = Some (String.append "Send Failed: "
              (opt_str_or (message e) "Unknown error")) /\
    currentUser s3 = currentUser s2 /\
    currentRoom s3 = currentRoom s2 /\
    (s2 = s1 -> ~ In (tempId pending) (ids (messages s)) ->
     messages s3 = messages s).
Proof.
  intros Hstart.
  apply sendMessage_start_pending in Hstart
    as (user & opt & _ & Hid & _ & _ & _ & _ & _ & Hmsgs & Htext & _ & _).
  eexists. split; [reflexivity|]. simpl. repeat split; auto.
  - rewrite Hmsgs, ids_app. apply in_or_app. right. left. exact Hid.
  - apply filter_out_id.
  - intros -> Hfresh. rewrite Hmsgs, List.filter_app. simpl.
    rewrite Hid, String.eqb_refl. simpl.
    rewrite app_nil_r. now apply filter_out_fresh.
Qed.

Lemma failed_send_rolled_back_witness :
  let s := draft_hi [newMessage ana hola] in
  let s1 := fst (sendMessage_start 1010 1010 s) in
  let pending := mkPending "temp-1010" "hi" "lobby" in
  let e := mkExn (Some "new row violates row-level security policy") in
  sendMessage_start 1010 1010 s = (s1, Some pending) /\
  exists s3,
    sendMessage_settle pending (chatSync_sendMessage (Some e)) s1 = inl s3 /\
    In (tempId pending) (ids (messages s1)) /\
    ~ In (tempId pending) (ids (messages s3)) /\
    messages s3
    = List.filter
        (fun m : TranslatedMessage => negb (String.eqb (id m) (tempId pending)))
        (messages s1) /\
    inputText s3 = inputText s /\
    error s3
    = Some (String.append "Send Failed: "
              (opt_str_or (message e) "Unknown error")) /\
    currentUser s3 = currentUser s1 /\
    currentRoom s3 = currentRoom s1 /\
    (s1 = s1 -> ~ In (tempId pending) (ids (messages s)) ->
     messages s3 = messages s).
Proof.
  split; [reflexivity|].
  exact (failed_send_rolled_back 1010 1010 (draft_hi [newMessage ana hola])
           (fst (sendMessage_start 1010 1010 (draft_hi [newMessage ana hola])))
           (mkPending "temp-1010" "hi" "lobby")
           (mkExn (Some "new row violates row-level security policy"))
           (fst (sendMessage_start 1010 1010 (draft_hi [newMessage ana hola])))
           eq_refl).
Defined.

(** ** Own messages are never marked *)

Lemma own_never_translating_perm e l1 l2 :
  Permutation l1 l2 ->
  own_never_translating e l1 -> own_never_translating e l2.
Proof. intros Hp. apply Permutation_Forall, Hp. Qed.

Lemma newMessage_own user msg :
  senderEmail msg = email user ->
  isTranslating (newMessage user msg) <> Some true.
Proof.
  intros Hown. simpl. unfold eligible.
  rewrite Hown, String.eqb_refl, andb_false_r. discriminate.
Qed.

Lemma processMessage_own user msg prev :
  own_never_translating (email user) prev ->
  own_never_translating (email user) (processMessage (Some user) msg prev).
Proof.
  intros Hprev.
  assert (Hnew : forall m : TranslatedMessage,
            m = newMessage user msg ->
            senderEmail m = email user -> isTranslating m <> Some true).
  { intros m -> H. now apply newMessage_own. }
  unfold own_never_translating in *.
  destruct (processMessage_processed user msg prev)
    as [Hin | l1 p l2 _ -> Hp Hl1 | _ Hnone]; [exact Hprev | |];
    (eapply Permutation_Forall; [symmetry; apply sort_by_perm|]);
    rewrite List.Forall_app in *.
  - destruct Hprev as [H1 H2]. apply Forall_inv_tail in H2.
    split; [exact H1|]. constructor; [now apply Hnew | exact H2].
  - split; [exact Hprev|]. constructor; [now apply Hnew | constructor].
Qed.

Lemma admitHistory_own e history prev :
  own_never_translating e prev ->
  own_never_translating e (admitHistory history prev).
Proof.
  unfold own_never_translating. rewrite !List.Forall_forall.
  intros Hprev x Hx. apply admitHistory_In, last_with_id_Some in Hx as [Hx _].
  apply in_app_or in Hx as [Hx|Hx]; [|now apply Hprev].
  apply in_map_iff in Hx as (m & <- & _). discriminate.
Qed.

Lemma annotate_own e i t l :
  own_never_translating e l -> own_never_translating e (map (annotate i t) l).
Proof.
  unfold own_never_translating. rewrite !List.Forall_forall.
  intros Hl x Hx. apply in_map_iff in Hx as (m & <- & Hm).
  unfold annotate. destruct (String.eqb (id m) i); [discriminate|].
  now apply Hl.
Qed.

Lemma filter_own e (f : TranslatedMessage -> bool) l :
  own_never_translating e l -> own_never_translating e (List.filter f l).
Proof.
  unfold own_never_translating. rewrite !List.Forall_forall.
  intros Hl x Hx. apply filter_In in Hx as [Hx _]. now apply Hl.
Qed.

Lemma run_effect_app langs p : app (run_effect langs p) = app p.
Proof.
  unfold run_effect. now destruct (translation_effect langs (app p)).
Qed.

Lemma step_own_unmarked langs u p e :
  own_unmarked u p -> own_unmarked u (step langs p e).
Proof.
  intros [(u' & Hu' & He) Hown]. unfold own_unmarked, viewer_is.
  destruct e as [draft | room | fetched | msg | now_id now_ts
                 | k insert_error | k api_key gen | langCode]; simpl.
  - split; [now exists u' | exact Hown].
  - rewrite Hu', run_effect_app. simpl.
    split; [now exists u' | constructor].
  - destruct fetched as [history|err]; rewrite ?run_effect_app; simpl.
    + split; [now exists u' | now apply admitHistory_own].
    + split; [now exists u' | exact Hown].
  - destruct (returns_prev _ _ _).
    + split; [now exists u' | exact Hown].
    + rewrite run_effect_app. simpl. split; [now exists u'|].
      rewrite Hu', <- He. apply processMessage_own. now rewrite He.
  - destruct (sendMessage_start now_id now_ts (app p)) as [s' [pending|]]
      eqn:Hstart.
    + rewrite run_effect_app. simpl.
      apply sendMessage_start_pending in Hstart
        as (user & opt & Huser & _ & _ & _ & _ & Hflag & _ & Hmsgs & _ & _ & Hcur).
      split; [exists u'; now rewrite Hcur|].
      rewrite Hmsgs. apply List.Forall_app. split; [exact Hown|].
      constructor; [|constructor]. rewrite Hflag. discriminate.
    + split; [now exists u' | exact Hown].
  - destruct (sending p !! k) as [pending|].
    + destruct insert_error as [err|]; simpl; rewrite ?run_effect_app; simpl.
      * split; [now exists u' | now apply filter_own].
      * split; [now exists u' | exact Hown].
    + split; [now exists u' | exact Hown].
  - destruct (inflight p !! k) as [req|].
    + destruct (translateText _ _ _ _ _) as [translated|err]; simpl;
        rewrite run_effect_app; simpl;
        (split; [now exists u' | now apply annotate_own]).
    + split; [now exists u' | exact Hown].
  - rewrite Hu', run_effect_app. simpl.
    split; [|exact Hown]. now exists (with_language langCode u').
Qed.

Lemma run_own_unmarked langs u evs p :
  own_unmarked u p -> own_unmarked u (run langs p evs).
Proof.
  revert p. induction evs as [|e evs IH]; simpl; intros p Hp; [exact Hp|].
  now apply IH, step_own_unmarked.
Qed.

(** C9: in every state the pipeline reaches after sign-in, whatever the
    sequence of room entries, history fetches, live messages, sends, settled
    sends, settled translations and language changes, the signed-in user is
    still the viewer and no message whose senderEmail is the viewer's email
    has [isTranslating = true]. *)
Theorem own_messages_never_translating langs u evs :
  let p := run langs (signed_in u) evs in
  viewer_is u (app p) /\
  own_never_translating (email u) (messages (app p)).
Proof.
  apply run_own_unmarked. split; [now exists u | constructor].
Qed.

(** ** The translation effect *)

Lemma run_effect_inflight langs p :
  inflight (run_effect langs p) = inflight p \/
  exists req,
    inflight (run_effect langs p) = inflight p ++ [req] /\
    first_untranslated (messages (app p)) (untranslated req).
Proof.
  unfold run_effect, translation_effect.
  destruct (List.find is_untranslated (messages (app p))) as [m|] eqn:Hfind;
    [|now left].
  destruct (currentUser (app p)); [|now left].
  right. eexists. split; [reflexivity|]. simpl.
  now apply find_first.
Qed.

Lemma delete_absent {A} (l : list A) k : l !! k = None -> delete k l = l.
Proof.
  revert k. induction l as [|a l IH]; intros [|k]; simpl; try reflexivity.
  - discriminate.
  - intros H. f_equal. now apply IH.
Qed.

(** Sortedness of the selected messages passes to a narrower selection. *)
Lemma sorted_filter_narrow {A} (key : A -> Z) (f g : A -> bool) l :
  (forall x, g x = true -> f x = true) ->
  sorted_by key (List.filter f l) -> sorted_by key (List.filter g l).
Proof.
  intros Hgf. unfold sorted_by.
  induction l as [|x l IH]; simpl; intros Hs; [constructor|].
  destruct (g x) eqn:Hg.
  - rewrite (Hgf x Hg) in Hs. apply StronglySorted_inv in Hs as [Hs Hx].
    constructor; [now apply IH|].
    rewrite List.Forall_forall in *. intros y Hy. apply Hx.
    apply filter_In in Hy as [Hy Hgy]. apply filter_In. auto.
  - destruct (f x); [apply StronglySorted_inv in Hs as [Hs _]|]; now apply IH.
Qed.

Lemma sorted_filter {A} (key : A -> Z) (f : A -> bool) l :
  sorted_by key l -> sorted_by key (List.filter f l).
Proof.
  intros Hs. apply sorted_filter_narrow with (f := fun _ => true); [auto|].
  clear f. replace (List.filter (fun _ => true) l) with l; [exact Hs|].
  induction l as [|x l IH]; simpl; [reflexivity|].
  apply StronglySorted_inv in Hs as [Hs _]. now rewrite <- IH.
Qed.

Lemma sorted_marked_in_order l : sorted_by_timestamp l -> marked_in_order l.
Proof. apply sorted_filter. Qed.

Lemma processMessage_marked_in_order userRef msg prev :
  marked_in_order prev -> marked_in_order (processMessage userRef msg prev).
Proof.
  intros Hprev. destruct userRef as [user|]; [|exact Hprev].
  destruct (processMessage_processed user msg prev); [exact Hprev | |];
    apply sorted_marked_in_order, sort_by_sorted.
Qed.

Lemma filter_marked_in_order (f : TranslatedMessage -> bool) l :
  marked_in_order l -> marked_in_order (List.filter f l).
Proof.
  unfold marked_in_order, sorted_by_timestamp. intros Hl.
  replace (List.filter marked (List.filter f l))
    with (List.filter (fun m => marked m && f m) l).
  - eapply sorted_filter_narrow; [|exact Hl].
    intros x Hx. now apply andb_true_iff in Hx.
  - clear Hl. induction l as [|x l IH]; simpl; [reflexivity|].
    destruct (f x), (marked x) eqn:Hm; simpl; rewrite ?Hm, IH; reflexivity.
Qed.

Lemma annotate_settled i t (x : TranslatedMessage) :
  String.eqb (id x) i = true -> marked (annotate i t x) = false.
Proof. unfold annotate. now intros ->. Qed.

Lemma annotate_other i t (x : TranslatedMessage) :
  String.eqb (id x) i = false -> annotate i t x = x.
Proof. unfold annotate. now intros ->. Qed.

Lemma annotate_marked_in_order i t l :
  marked_in_order l -> marked_in_order (map (annotate i t) l).
Proof.
  unfold marked_in_order, sorted_by_timestamp. intros Hl.
  replace (List.filter marked (map (annotate i t) l))
    with (List.filter
            (fun m : TranslatedMessage =>
               marked m && negb (String.eqb (id m) i)) l).
  - eapply sorted_filter_narrow; [|exact Hl].
    intros x Hx. now apply andb_true_iff in Hx.
  - clear Hl. induction l as [|x l IH]; [reflexivity|].
    cbn [map List.filter]. rewrite <- IH.
    destruct (String.eqb (id x) i) eqn:E; cbn [negb].
    + rewrite (annotate_settled i t x E), andb_false_r. reflexivity.
    + rewrite (annotate_other i t x E), andb_true_r. reflexivity.
Qed.

Lemma step_marked_in_order langs p e :
  marked_in_order (messages (app p)) ->
  marked_in_order (messages (app (step langs p e))).
Proof.
  intros Hp.
  destruct e as [draft | room | fetched | msg | now_id now_ts
                 | k insert_error | k api_key gen | langCode]; simpl.
  - exact Hp.
  - destruct (currentUser (app p)); [|exact Hp].
    rewrite run_effect_app. constructor.
  - destruct fetched as [history|err]; rewrite ?run_effect_app; simpl.
    + apply sorted_marked_in_order, admitHistory_sorted.
    + exact Hp.
  - destruct (returns_prev _ _ _); [exact Hp|].
    rewrite run_effect_app. simpl. now apply processMessage_marked_in_order.
  - destruct (sendMessage_start now_id now_ts (app p)) as [s' [pending|]]
      eqn:Hstart; [|exact Hp].
    rewrite run_effect_app. simpl.
    apply sendMessage_start_pending in Hstart
      as (user & opt & _ & _ & _ & _ & _ & Hflag & _ & Hmsgs & _).
    rewrite Hmsgs. unfold marked_in_order. rewrite List.filter_app. simpl.
    unfold marked at 2. rewrite Hflag. simpl. now rewrite app_nil_r.
  - destruct (sending p !! k) as [pending|]; [|exact Hp].
    destruct insert_error as [err|]; simpl; rewrite ?run_effect_app; simpl.
    + now apply filter_marked_in_order.
    + exact Hp.
  - destruct (inflight p !! k) as [req|]; [|exact Hp].
    destruct (translateText _ _ _ _ _) as [translated|err]; simpl;
      rewrite run_effect_app; simpl; now apply annotate_marked_in_order.
  - destruct (currentUser (app p)); [|exact Hp].
    rewrite run_effect_app. exact Hp.
Qed.

Lemma run_marked_in_order langs evs p :
  marked_in_order (messages (app p)) ->
  marked_in_order (messages (app (run langs p evs))).
Proof.
  revert p. induction evs as [|e evs IH]; simpl; intros p Hp; [exact Hp|].
  now apply IH, step_marked_in_order.
Qed.

Lemma sorted_by_app_inv {A} (key : A -> Z) l1 x l2 :
  sorted_by key (l1 ++ x :: l2) -> Forall (fun y => key x <= key y) l2.
Proof.
  unfold sorted_by. induction l1 as [|a l1 IH]; simpl; intros Hs;
    apply StronglySorted_inv in Hs as [Hs Hx]; [exact Hx | now apply IH].
Qed.

(** In a list whose marked messages are in order, the first message that
    awaits translation is the oldest one that does. *)
Lemma first_untranslated_oldest l m :
  marked_in_order l -> first_untranslated l m ->
  Forall (fun x : TranslatedMessage =>
            is_untranslated x = true -> timestamp m <= timestamp x) l.
Proof.
  intros Hl (before & after & -> & Hm & Hbefore).
  unfold marked_in_order, sorted_by_timestamp in Hl.
  rewrite List.filter_app in Hl. simpl in Hl.
  assert (Hmarked : marked m = true).
  { unfold is_untranslated in Hm. now apply andb_true_iff in Hm. }
  rewrite Hmarked in Hl. apply sorted_by_app_inv in Hl.
  rewrite List.Forall_forall in Hl.
  apply List.Forall_app. split; [|constructor].
  - rewrite forallb_forall in Hbefore. apply List.Forall_forall.
    intros x Hx Hux. specialize (Hbefore x Hx). rewrite Hux in Hbefore.
    discriminate.
  - intros _. lia.
  - apply List.Forall_forall. intros x Hx Hux. apply Hl.
    apply filter_In. split; [exact Hx|].
    unfold is_untranslated in Hux. now apply andb_true_iff in Hux.
Qed.

Lemma run_effect_started langs q outstanding :
  inflight q = outstanding ->
  inflight (run_effect langs q) = outstanding \/
  exists req,
    inflight (run_effect langs q) = outstanding ++ [req] /\
    first_untranslated (messages (app (run_effect langs q)))
                       (untranslated req).
Proof.
  intros <-. rewrite run_effect_app. apply run_effect_inflight.
Qed.

(** One event starts at most one request, and starts it for the first
    message of the new list that awaits translation. *)
Lemma step_started langs p e :
  inflight (step langs p e) = still_outstanding p e \/
  exists req,
    inflight (step langs p e) = still_outstanding p e ++ [req] /\
    first_untranslated (messages (app (step langs p e))) (untranslated req).
Proof.
  destruct e as [draft | room | fetched | msg | now_id now_ts
                 | k insert_error | k api_key gen | langCode]; simpl.
  - now left.
  - destruct (currentUser (app p)); [|now left].
    now apply run_effect_started.
  - destruct fetched; [|now left]. now apply run_effect_started.
  - destruct (returns_prev _ _ _); [now left|]. now apply run_effect_started.
  - destruct (sendMessage_start now_id now_ts (app p)) as [s' [pending|]];
      [|now left].
    now apply run_effect_started.
  - destruct (sending p !! k); [|now left].
    destruct insert_error; simpl; [|now left]. now apply run_effect_started.
  - destruct (inflight p !! k) as [req|] eqn:Hk.
    + destruct (translateText _ _ _ _ _); simpl; now apply run_effect_started.
    + left. symmetry. now apply delete_absent.
  - destruct (currentUser (app p)); [|now left].
    now apply run_effect_started.
Qed.

Lemma annotate_not_untranslated i t l :
  Forall (fun x : TranslatedMessage => id x = i -> is_untranslated x = false)
         (map (annotate i t) l).
Proof.
  apply List.Forall_forall. intros x Hx Hid.
  apply in_map_iff in Hx as (m & <- & _).
  destruct (String.eqb (id m) i) eqn:E.
  - unfold is_untranslated. fold (marked (annotate i t m)).
    now rewrite annotate_settled.
  - rewrite annotate_other in Hid by exact E.
    apply String.eqb_neq in E. contradiction.
Qed.

(** C3 at a run where the claim fails.  Two messages from another user
    arrive in Spanish.  The arrival of the second runs the effect again
    while the request for the first is outstanding, and a second request is
    started: for the same message when it is still the first candidate, for
    the new message when that one is older.  When both requests for message
    1 settle, the first with the translation "hello" and the second with a
    rejection of the gateway, the translation shown is the one that settled
    last: the original text. *)
Lemma requests_not_serialized :
  map (fun r => id (untranslated r))
      (inflight (run languages (signed_in ana)
                   [EnterRoom lobby; LiveMessage hola; LiveMessage adios]))
  = ["1"; "1"] /\
  map (fun r => id (untranslated r))
      (inflight (run languages (signed_in ana)
                   [EnterRoom lobby; LiveMessage adios; LiveMessage hola]))
  = ["2"; "1"] /\
  map (fun m : TranslatedMessage => (id m, translatedText m))
      (messages (app (run languages (signed_in ana)
                        [EnterRoom lobby; LiveMessage hola; LiveMessage adios;
                         TranslationSettled 0 (Some "key")
                           (Responds (Some "hello"))])))
  = [("1", Some "hello"); ("2", None)] /\
  map (fun m : TranslatedMessage => (id m, translatedText m))
      (messages (app (run languages (signed_in ana)
                        [EnterRoom lobby; LiveMessage hola; LiveMessage adios;
                         TranslationSettled 0 (Some "key")
                           (Responds (Some "hello"));
                         TranslationSettled 0 (Some "key")
                           (Rejects (mkExn (Some "503")))])))
  = [("1", Some "hola"); ("2", None)].
Proof. repeat split; reflexivity. Qed.

(** * Further properties of the code *)

(** ** History: what a fetch returns and what room entry shows *)

Lemma fetchHistory_serving table roomId :
  fetchHistory (Serving table) roomId
  = inl (map rowToMessage
           (firstn 50 (sort_by created_at (q_eq_room_id roomId table)))).
Proof. reflexivity. Qed.

(** X1: A room with at most 50 rows is fetched whole: every row of the room is
    returned once, as a message, and the messages are in ascending order of
    timestamp. *)
Theorem fetchHistory_small_room_complete table roomId :
  (length (q_eq_room_id roomId table) <= 50)%nat ->
  exists history,
    fetchHistory (Serving table) roomId = inl history /\
    Permutation history (map rowToMessage (q_eq_room_id roomId table)) /\
    length history = length (q_eq_room_id roomId table) /\
    sorted_by timestamp history.
Proof.
  intros Hlen. rewrite fetchHistory_serving. eexists. split; [reflexivity|].
  rewrite firstn_all2 by now rewrite sort_by_length.
  repeat split.
  - apply Permutation_map, sort_by_perm.
  - now rewrite length_map, sort_by_length.
  - apply sorted_by_map. simpl. apply sort_by_sorted.
Qed.

Lemma fetchHistory_small_room_complete_witness :
  (length (q_eq_room_id "lobby" (firstn 3 busy_table)) <= 50)%nat /\
  exists history,
    fetchHistory (Serving (firstn 3 busy_table)) "lobby" = inl history /\
    Permutation history
      (map rowToMessage (q_eq_room_id "lobby" (firstn 3 busy_table))) /\
    length history = length (q_eq_room_id "lobby" (firstn 3 busy_table)) /\
    sorted_by timestamp history.
Proof.
  assert (H : (length (q_eq_room_id "lobby" (firstn 3 busy_table)) <= 50)%nat)
    by (vm_compute; lia).
  split; [exact H|].
  exact (fetchHistory_small_room_complete (firstn 3 busy_table) "lobby" H).
Defined.

Lemma In_firstn {A} (x : A) n l : In x (firstn n l) -> In x l.
Proof.
  intros H. rewrite <- (firstn_skipn n l). apply in_or_app. now left.
Qed.

(** X2: A fetch sees the rows of its room only: the result is the one for the
    table cut down to the room, rows of other rooms added to the table do
    not change it, and every message returned comes from a row of the
    room. *)
Theorem fetchHistory_room_isolation table roomId :
  fetchHistory (Serving table) roomId
  = fetchHistory (Serving (q_eq_room_id roomId table)) roomId /\
  (forall others,
     forallb (fun r => negb (String.eqb (room_id r) roomId)) others = true ->
     fetchHistory (Serving (table ++ others)) roomId
     = fetchHistory (Serving table) roomId) /\
  (forall history m,
     fetchHistory (Serving table) roomId = inl history ->
     In m history ->
     exists row, In row table /\ room_id row = roomId /\ m = rowToMessage row).
Proof.
  assert (Hidem : forall t, q_eq_room_id roomId (q_eq_room_id roomId t)
                            = q_eq_room_id roomId t).
  { intros t. unfold q_eq_room_id. induction t as [|r t IH]; simpl; auto.
    destruct (String.eqb (room_id r) roomId) eqn:E; simpl; rewrite ?E, IH;
      reflexivity. }
  repeat split.
  - rewrite !fetchHistory_serving. now rewrite Hidem.
  - intros others Hothers. rewrite !fetchHistory_serving.
    unfold q_eq_room_id at 1. rewrite List.filter_app.
    replace (List.filter (fun r => String.eqb (room_id r) roomId) others)
      with (@nil DbRow); [now rewrite app_nil_r|].
    induction others as [|r others IH]; simpl in *; [reflexivity|].
    apply andb_true_iff in Hothers as [Hr Hothers].
    apply negb_true_iff in Hr. rewrite Hr. now apply IH.
  - intros history m Hfetch Hm. rewrite fetchHistory_serving in Hfetch.
    injection Hfetch as <-. apply in_map_iff in Hm as (row & <- & Hrow).
    exists row. apply In_firstn, sort_by_In, filter_In in Hrow as [Hin Hroom].
    apply String.eqb_eq in Hroom. auto.
Qed.

(** X3: A failed fetch is told apart from an empty room.  When the store
    answers with an error, room entry ends with the messages that are in
    memory (those the live channel brought meanwhile) untouched, the error
    shown as "Sync Error: ..." with the store's message, or a fixed text
    when it has none, and the loading flag down.  When the store serves a
    table with no row of the room, room entry ends with no error and with
    the messages in memory alone. *)
Theorem initRoom_failure_is_not_empty_room e table roomId s :
  q_eq_room_id roomId table = [] ->
  let failed := initRoom_settle (fetchHistory (Failing e) roomId) s in
  let empty := initRoom_settle (fetchHistory (Serving table) roomId) s in
  fetchHistory (Failing e) roomId = inr e /\
  messages failed = messages s /\
  isHistoryLoading failed = false /\
  error failed
  = Some (String.append "Sync Error: "
            (opt_str_or (message e) "Failed to load messages.")) /\
  fetchHistory (Serving table) roomId = inl [] /\
  messages empty = admitHistory [] (messages s) /\
  isHistoryLoading empty = false /\
  error empty = error s.
Proof.
  intros Hempty. rewrite fetchHistory_serving, Hempty. simpl.
  repeat split.
Qed.

Lemma initRoom_failure_is_not_empty_room_witness :
  let e := mkExn (Some "relation public.messages does not exist") in
  let s := initRoom_start (draft_hi []) in
  let failed := initRoom_settle (fetchHistory (Failing e) "attic") s in
  let empty := initRoom_settle (fetchHistory (Serving busy_table) "attic") s in
  q_eq_room_id "attic" busy_table = [] /\
  fetchHistory (Failing e) "attic" = inr e /\
  messages failed = messages s /\
  isHistoryLoading failed = false /\
  error failed
  = Some (String.append "Sync Error: "
            (opt_str_or (message e) "Failed to load messages.")) /\
  fetchHistory (Serving busy_table) "attic" = inl [] /\
  messages empty = admitHistory [] (messages s) /\
  isHistoryLoading empty = false /\
  error empty = error s.
Proof.
  split; [reflexivity|].
  exact (initRoom_failure_is_not_empty_room
           (mkExn (Some "relation public.messages does not exist"))
           busy_table "attic" (initRoom_start (draft_hi [])) eq_refl).
Defined.

Lemma map_set_fresh k v m :
  ~ In k (map_keys m) -> map_set k v m = m ++ [(k, v)].
Proof.
  induction m as [|[k0 v0] m IH]; simpl; intros Hk; [reflexivity|].
  destruct (String.eqb_spec k0 k) as [->|Hne].
  - exfalso. apply Hk. now left.
  - rewrite IH; [reflexivity|]. intros Hin. apply Hk. now right.
Qed.

Lemma set_all_fresh l unique :
  List.NoDup (map_keys unique ++ ids l) ->
  set_all l unique
  = unique ++ map (fun m : TranslatedMessage => (id m, m)) l.
Proof.
  revert unique. induction l as [|x l IH]; simpl; intros unique Hnd.
  - now rewrite app_nil_r.
  - rewrite map_set_fresh.
    + rewrite IH.
      * now rewrite <- app_assoc.
      * unfold map_keys in *. rewrite map_app, <- app_assoc. exact Hnd.
    + apply NoDup_remove_2 in Hnd. intros Hin. apply Hnd.
      apply in_or_app. now left.
Qed.

(** History whose ids are unique and whose timestamps ascend is admitted
    into an empty list as it is, row by row. *)
Lemma admitHistory_fresh history :
  List.NoDup (map id history) ->
  sorted_by timestamp history ->
  admitHistory history [] = map asTranslated history.
Proof.
  intros Hnd Hs. unfold admitHistory. rewrite app_nil_r, set_all_fresh.
  - simpl. unfold map_values. rewrite map_map. simpl. rewrite map_id.
    apply sort_by_sorted_id.
    apply (sorted_by_map asTranslated (fun m : TranslatedMessage => timestamp m)).
    exact Hs.
  - simpl. unfold ids. rewrite map_map. exact Hnd.
Qed.

Lemma NoDup_map_filter {A B} (f : A -> B) (p : A -> bool) l :
  List.NoDup (map f l) -> List.NoDup (map f (List.filter p l)).
Proof.
  induction l as [|x l IH]; simpl; intros Hnd; [constructor|].
  apply NoDup_cons_iff in Hnd as [Hx Hnd].
  destruct (p x); simpl; [|now apply IH].
  constructor; [|now apply IH].
  intros Hin. apply Hx. apply in_map_iff in Hin as (y & Hy & Hin).
  apply in_map_iff. exists y. split; [exact Hy|].
  now apply filter_In in Hin.
Qed.

Lemma fetchHistory_ids_unique table roomId history :
  List.NoDup (db_ids table) ->
  fetchHistory (Serving table) roomId = inl history ->
  List.NoDup (map id history).
Proof.
  intros Hnd Hfetch. rewrite fetchHistory_serving in Hfetch.
  injection Hfetch as <-. rewrite map_map. simpl.
  rewrite <- firstn_map.
  set (rows := sort_by created_at (q_eq_room_id roomId table)).
  apply NoDup_app_remove_r with (l' := skipn 50 (map db_id rows)).
  rewrite firstn_skipn.
  eapply Permutation_NoDup;
    [symmetry; apply Permutation_map, sort_by_perm|].
  now apply NoDup_map_filter.
Qed.

Lemma fetchHistory_sorted table roomId history :
  fetchHistory (Serving table) roomId = inl history ->
  sorted_by timestamp history.
Proof.
  rewrite fetchHistory_serving. intros [= <-].
  apply sorted_by_map. simpl. apply sorted_by_firstn, sort_by_sorted.
Qed.

(** X4: Room entry shows the fetched history as the store returned it: when the
    ids of the table are unique and no live message came in before the fetch
    settled, the list after room entry is the fetched history, in the order
    of the fetch, no message annotated; the loading flag is down and no
    error is set. *)
Theorem room_entry_shows_history table roomId history s :
  List.NoDup (db_ids table) ->
  fetchHistory (Serving table) roomId = inl history ->
  let s' := initRoom_settle (inl history) (initRoom_start s) in
  messages s' = map asTranslated history /\
  isHistoryLoading s' = false /\
  error s' = None.
Proof.
  intros Hnd Hfetch. simpl. repeat split.
  apply admitHistory_fresh.
  - eapply fetchHistory_ids_unique; eassumption.
  - eapply fetchHistory_sorted; eassumption.
Qed.

Lemma room_entry_shows_history_witness :
  let table := firstn 3 busy_table in
  let history := map rowToMessage table in
  let s' := initRoom_settle (inl history) (initRoom_start (draft_hi [])) in
  List.NoDup (db_ids table) /\
  fetchHistory (Serving table) "lobby" = inl history /\
  messages s' = map asTranslated history /\
  isHistoryLoading s' = false /\
  error s' = None.
Proof.
  assert (Hnd : List.NoDup (db_ids (firstn 3 busy_table))).
  { vm_compute. repeat constructor; simpl; intuition discriminate. }
  split; [exact Hnd|]. split; [reflexivity|].
  exact (room_entry_shows_history (firstn 3 busy_table) "lobby"
           (map rowToMessage (firstn 3 busy_table)) (draft_hi [])
           Hnd eq_refl).
Defined.

(** ** Live admission: what it keeps and where it puts the message *)

(** X5: Admission from the live channel touches nothing but the placeholder
    it replaces.  For a signed-in viewer the new list is, in this order of
    the tests: the old list itself when the id of the arriving message is in
    it; else, when a placeholder matches, the old list with the first
    matching placeholder, and that one alone, exchanged for the arriving
    message; else the old list with the arriving message added.  In the last
    two cases every other message is kept as it was and as often as it
    occurred, and the new list is in timestamp order. *)
Theorem live_admission_keeps_others user msg prev :
  let l := processMessage (Some user) msg prev in
  (In (id msg) (ids prev) /\ l = prev) \/
  (~ In (id msg) (ids prev) /\
   sorted_by_timestamp l /\
   exists l1 p l2,
     prev = l1 ++ p :: l2 /\
     is_temp_match msg p = true /\
     forallb (fun y => negb (is_temp_match msg y)) l1 = true /\
     Permutation l (l1 ++ newMessage user msg :: l2)) \/
  (~ In (id msg) (ids prev) /\
   sorted_by_timestamp l /\
   (forall x, In x prev -> is_temp_match msg x = false) /\
   Permutation l (prev ++ [newMessage user msg])).
Proof.
  cbv zeta.
  destruct (processMessage_processed user msg prev)
    as [Hin | l1 p l2 Hnin -> Hp Hl1 | Hnin Hnone].
  - left. now split.
  - right. left. split; [exact Hnin|]. split; [apply sort_by_sorted|].
    exists l1, p, l2. repeat split; try assumption. apply sort_by_perm.
  - right. right. split; [exact Hnin|]. split; [apply sort_by_sorted|].
    split; [exact Hnone | apply sort_by_perm].
Qed.

Lemma filter_all {A} (f : A -> bool) l :
  Forall (fun x => f x = true) l -> List.filter f l = l.
Proof.
  induction 1 as [|x l Hx Hl IH]; simpl; [reflexivity|]. now rewrite Hx, IH.
Qed.

Lemma filter_none {A} (f : A -> bool) l :
  Forall (fun x => f x = false) l -> List.filter f l = [].
Proof.
  induction 1 as [|x l Hx Hl IH]; simpl; [reflexivity|]. now rewrite Hx.
Qed.

(** Sorting a sorted list with one element added at its end puts the element
    behind those with a key up to its own and in front of the others. *)
Lemma sort_by_snoc {A} (key : A -> Z) l x :
  sorted_by key l ->
  sort_by key (l ++ [x])
  = List.filter (fun y => key y <=? key x) l
    ++ x :: List.filter (fun y => negb (key y <=? key x)) l.
Proof.
  unfold sorted_by. induction 1 as [|a l Hl IH Ha]; simpl; [reflexivity|].
  rewrite IH. destruct (Z.leb_spec (key a) (key x)) as [Hle|Hgt]; simpl.
  - apply insert_by_head. apply List.Forall_app. split.
    + apply List.Forall_forall. intros y Hy. apply filter_In in Hy as [Hy _].
      rewrite List.Forall_forall in Ha. now apply Ha.
    + constructor; [exact Hle|].
      apply List.Forall_forall. intros y Hy. apply filter_In in Hy as [Hy _].
      rewrite List.Forall_forall in Ha. now apply Ha.
  - rewrite filter_none, filter_all; simpl.
    + destruct (Z.leb_spec (key a) (key x)); [lia|].
      f_equal. now apply insert_by_head.
    + eapply List.Forall_impl; [|exact Ha]. simpl. intros y Hy.
      apply negb_true_iff, Z.leb_gt. lia.
    + eapply List.Forall_impl; [|exact Ha]. simpl. intros y Hy.
      apply Z.leb_gt. lia.
Qed.

Lemma findIndex_no_match {A} (p : A -> bool) l :
  (forall x, In x l -> p x = false) -> findIndex p l = None.
Proof.
  induction l as [|a l IH]; simpl; intros H; [reflexivity|].
  rewrite (H a) by now left. rewrite IH; [reflexivity|].
  intros x Hx. apply H. now right.
Qed.

(** X6: A message that is new to a sorted list and confirms no placeholder goes
    behind every message with a timestamp up to its own, also behind those
    with the same timestamp, and in front of the later ones; the other
    messages keep their order. *)
Theorem live_admission_position user msg prev :
  sorted_by_timestamp prev ->
  ~ In (id msg) (ids prev) ->
  (forall x, In x prev -> is_temp_match msg x = false) ->
  processMessage (Some user) msg prev
  = List.filter (fun m : TranslatedMessage => timestamp m <=? timestamp msg)
      prev
    ++ newMessage user msg
       :: List.filter
            (fun m : TranslatedMessage => negb (timestamp m <=? timestamp msg))
            prev.
Proof.
  intros Hs Hnew Hnone. unfold processMessage.
  apply has_id_false in Hnew. rewrite Hnew.
  rewrite findIndex_no_match by exact Hnone.
  unfold sort_by_timestamp.
  now rewrite (sort_by_snoc (fun m : TranslatedMessage => timestamp m)).
Qed.

Lemma live_admission_position_witness :
  let prev := [newMessage ana hola; newMessage ana adios] in
  let tie := mkMessage "3" "eve" "eve@jeri.chat" "en" "hey" 100 in
  sorted_by_timestamp prev /\
  ~ In (id tie) (ids prev) /\
  (forall x, In x prev -> is_temp_match tie x = false) /\
  processMessage (Some ana) tie prev
  = List.filter (fun m : TranslatedMessage => timestamp m <=? timestamp tie)
      prev
    ++ newMessage ana tie
       :: List.filter
            (fun m : TranslatedMessage => negb (timestamp m <=? timestamp tie))
            prev.
Proof.
  set (prev := [newMessage ana hola; newMessage ana adios]).
  set (tie := mkMessage "3" "eve" "eve@jeri.chat" "en" "hey" 100).
  assert (Hs : sorted_by_timestamp prev).
  { repeat constructor. simpl. lia. }
  assert (Hnew : ~ In (id tie) (ids prev)).
  { simpl. intros [H|[H|[]]]; discriminate H. }
  assert (Hnone : forall x, In x prev -> is_temp_match tie x = false).
  { intros x [<-|[<-|[]]]; reflexivity. }
  split; [exact Hs|]. split; [exact Hnew|]. split; [exact Hnone|].
  exact (live_admission_position ana tie prev Hs Hnew Hnone).
Defined.

(** ** Optimistic send and its confirmation *)

Lemma sendMessage_start_tempId now_id now_ts s s1 pending :
  sendMessage_start now_id now_ts s = (s1, Some pending) ->
  tempId pending = String.append "temp-" (number_to_string now_id).
Proof.
  unfold sendMessage_start.
  destruct (currentUser s); [|discriminate].
  destruct (currentRoom s); [|discriminate].
  destruct (String.eqb (trim (inputText s)) ""); [discriminate|].
  now intros [= <- <-].
Qed.

Lemma findIndex_last {A} (p : A -> bool) l x :
  (forall y, In y l -> p y = false) -> p x = true ->
  findIndex p (l ++ [x]) = Some (length l).
Proof.
  induction l as [|a l IH]; simpl; intros Hl Hx.
  - now rewrite Hx.
  - rewrite (Hl a) by now left. rewrite IH; [reflexivity| |exact Hx].
    intros y Hy. apply Hl. now right.
Qed.

(** X7: Send, then confirmation.  The viewer submits a draft; the row the store
    made of it comes back on the live channel, with the viewer's email and
    the text of the draft, under an id the list does not hold.  When no
    earlier placeholder of the list matches the row, the placeholder of this
    send is the one replaced: the list is the one that admitting the row
    would have given had the send never been shown, it holds the row
    exactly once, and the temporary id is gone from it unless the list held
    it before the send. *)
Theorem send_then_confirmation now_id now_ts s s1 pending user msg :
  sendMessage_start now_id now_ts s = (s1, Some pending) ->
  currentUser s = Some user ->
  senderEmail msg = email user ->
  text msg = inputText s ->
  ~ In (id msg) (ids (messages s)) ->
  id msg <> tempId pending ->
  (forall x, In x (messages s) -> is_temp_match msg x = false) ->
  let l := processMessage (Some user) msg (messages s1) in
  l = processMessage (Some user) msg (messages s) /\
  l = sort_by_timestamp (messages s ++ [newMessage user msg]) /\
  length l = length (messages s1) /\
  In (newMessage user msg) l /\
  (~ In (tempId pending) (ids (messages s)) -> ~ In (tempId pending) (ids l)).
Proof.
  intros Hstart Huser Hemail Htext Hnew Hne Hnone.
  pose proof (sendMessage_start_tempId _ _ _ _ _ Hstart) as Htemp.
  apply sendMessage_start_pending in Hstart
    as (user' & opt & Huser' & Hid & Hoemail & Hotext & _ & _ & _ & Hmsgs & _).
  rewrite Huser in Huser'. injection Huser' as <-.
  assert (Hmatch : is_temp_match msg opt = true).
  { unfold is_temp_match. rewrite Hid, Htemp, Hoemail, Hotext, Hemail, Htext.
    rewrite !String.eqb_refl, !andb_true_r.
    generalize (number_to_string now_id). intros n. now destruct n. }
  assert (Hdirect : processMessage (Some user) msg (messages s)
                    = sort_by_timestamp (messages s ++ [newMessage user msg])).
  { unfold processMessage. apply has_id_false in Hnew. rewrite Hnew.
    now rewrite findIndex_no_match. }
  assert (Hafter : processMessage (Some user) msg (messages s1)
                   = sort_by_timestamp (messages s ++ [newMessage user msg])).
  { unfold processMessage. rewrite Hmsgs.
    assert (Hfresh : has_id (id msg) (messages s ++ [opt]) = false).
    { apply has_id_false. rewrite ids_app. intros Hin.
      apply in_app_or in Hin as [Hin|[Hin|[]]]; [now apply Hnew|].
      apply Hne. now rewrite <- Hin, Hid. }
    rewrite Hfresh, (findIndex_last _ _ _ Hnone Hmatch).
    now rewrite (insert_middle (messages s) [] opt). }
  cbv zeta. rewrite Hafter. repeat split.
  - now rewrite Hdirect.
  - unfold sort_by_timestamp. now rewrite sort_by_length, Hmsgs, !length_app.
  - apply sort_by_In, in_or_app. right. now left.
  - intros Hfresh Hin. eapply Permutation_in in Hin; [|apply ids_sort].
    rewrite ids_app in Hin. apply in_app_or in Hin as [Hin|[Hin|[]]].
    + now apply Hfresh.
    + now apply Hne.
Qed.

Lemma send_then_confirmation_witness :
  let s := draft_hi [newMessage ana hola] in
  let s1 := fst (sendMessage_start 1010 1010 s) in
  let pending := mkPending "temp-1010" "hi" "lobby" in
  let l := processMessage (Some ana) hi_confirmed (messages s1) in
  sendMessage_start 1010 1010 s = (s1, Some pending) /\
  l = processMessage (Some ana) hi_confirmed (messages s) /\
  l = sort_by_timestamp (messages s ++ [newMessage ana hi_confirmed]) /\
  length l = length (messages s1) /\
  In (newMessage ana hi_confirmed) l /\
  (~ In (tempId pending) (ids (messages s)) -> ~ In (tempId pending) (ids l)).
Proof.
  split; [reflexivity|].
  refine (send_then_confirmation 1010 1010 (draft_hi [newMessage ana hola])
            (fst (sendMessage_start 1010 1010 (draft_hi [newMessage ana hola])))
            (mkPending "temp-1010" "hi" "lobby") ana hi_confirmed
            eq_refl eq_refl eq_refl eq_refl _ _ _).
  - simpl. intros [H|[]]. discriminate H.
  - simpl. discriminate.
  - intros x [<-|[]]. reflexivity.
Defined.

(** X8: Temporary ids repeat the clock: two sends get the same temporary id
    exactly when [Date.now()] gave them the same number, so sends in
    different milliseconds never share a placeholder id and sends in the
    same millisecond always do. *)
Theorem tempId_repeats_clock now_id now_ts s s1 pending
    now_id' now_ts' s' s1' pending' :
  sendMessage_start now_id now_ts s = (s1, Some pending) ->
  sendMessage_start now_id' now_ts' s' = (s1', Some pending') ->
  String.prefix "temp-" (tempId pending) = true /\
  (tempId pending = tempId pending' <-> now_id = now_id').
Proof.
  intros H1 H2.
  apply sendMessage_start_tempId in H1, H2. rewrite H1, H2. split.
  - now destruct (number_to_string now_id).
  - split; [|now intros ->].
    simpl. intros Heq. injection Heq as Heq.
    unfold number_to_string in Heq.
    assert (Hinj : forall z, NilZero.int_of_string
                               (NilZero.string_of_int (Z.to_int z))
                             = Some (Z.to_int z)).
    { intros z. apply NilZero.isi; intros H;
        pose proof (DecimalZ.of_to z) as E; rewrite H in E;
        vm_compute in E; subst z; discriminate H. }
    apply DecimalZ.to_int_inj.
    pose proof (Hinj now_id) as Ha. rewrite Heq, Hinj in Ha.
    now injection Ha.
Qed.

Lemma tempId_repeats_clock_witness :
  String.prefix "temp-" "temp-1010" = true /\
  ("temp-1010" = "temp-1011" <-> 1010 = 1011).
Proof.
  exact (tempId_repeats_clock 1010 1010 (draft_hi [])
           (fst (sendMessage_start 1010 1010 (draft_hi [])))
           (mkPending "temp-1010" "hi" "lobby")
           1011 1011 (draft_hi [])
           (fst (sendMessage_start 1011 1011 (draft_hi [])))
           (mkPending "temp-1011" "hi" "lobby") eq_refl eq_refl).
Defined.

(** ** The translation gateway and the settling of a translation *)

(** X9: [translateText] with credentials never throws: whatever the gateway
    does, the caller gets a string, which is the text itself or the trimmed,
    non-empty text of the response; it is empty only when the text to
    translate is.  Without credentials it throws "API key is missing",
    whatever the gateway would have done. *)
Theorem translateText_outcomes api_key gen txt target source :
  if truthy_str api_key
  then exists r,
         translateText api_key gen txt target source = inl r /\
         (r = txt \/
          exists response,
            gen = Responds (Some response) /\ r = trim response /\ r <> "") /\
         (r = "" -> txt = "")
  else translateText api_key gen txt target source
       = inr (mkExn (Some "API key is missing")).
Proof.
  unfold translateText. destruct (truthy_str api_key); simpl; [|reflexivity].
  destruct gen as [[response|]|e]; simpl.
  - unfold str_or. destruct (String.eqb_spec (trim response) "") as [E|E].
    + exists txt. auto.
    + exists (trim response). repeat split.
      * right. now exists response.
      * intros H. contradiction.
  - exists txt. auto.
  - exists txt. auto.
Qed.

Lemma ids_annotate i t l : ids (map (annotate i t) l) = ids l.
Proof.
  unfold ids. rewrite map_map. apply map_ext. intros m.
  unfold annotate. now destruct (String.eqb (id m) i).
Qed.

Lemma timestamps_annotate i t l :
  timestamps (map (annotate i t) l) = timestamps l.
Proof.
  unfold timestamps. rewrite map_map. apply map_ext. intros m.
  unfold annotate. now destruct (String.eqb (id m) i).
Qed.

Lemma doTranslation_settle_messages req translation s :
  exists t,
    doTranslation_settle req translation s
    = inl (set_messages
             (map (annotate (id (untranslated req)) t) (messages s)) s) /\
    t = match translation with
        | inl translated => translated
        | inr _ => text (untranslated req)
        end.
Proof. destruct translation; eexists; split; reflexivity. Qed.

(** X10: The settling of a translation, successful or not, changes annotations
    only: the list has the same ids and the same timestamps at the same
    positions, a message with another id than the request's is as it was,
    and a message with the request's id carries the translation (the
    original text of the request when the call threw) and is no longer
    marked.  Input, error, user and room are as they were. *)
Theorem translation_settles_in_place req translation s :
  exists s' t,
    doTranslation_settle req translation s = inl s' /\
    t = match translation with
        | inl translated => translated
        | inr _ => text (untranslated req)
        end /\
    ids (messages s') = ids (messages s) /\
    timestamps (messages s') = timestamps (messages s) /\
    (forall i (m : TranslatedMessage),
       messages s !! i = Some m ->
       messages s' !! i
       = Some (if String.eqb (id m) (id (untranslated req))
               then mkTM m (Some t) (Some false) else m)) /\
    inputText s' = inputText s /\ error s' = error s /\
    currentUser s' = currentUser s /\ currentRoom s' = currentRoom s.
Proof.
  destruct (doTranslation_settle_messages req translation s) as (t & -> & Ht).
  eexists _, t. split; [reflexivity|]. simpl. repeat split.
  - exact Ht.
  - apply ids_annotate.
  - apply timestamps_annotate.
  - intros i m Hm. now rewrite (lookup_map _ _ _ _ Hm).
Qed.

Lemma annotate_absent i t l :
  ~ In i (ids l) -> map (annotate i t) l = l.
Proof.
  induction l as [|x l IH]; simpl; intros H; [reflexivity|].
  rewrite IH by (intros Hin; apply H; now right).
  rewrite annotate_other; [reflexivity|].
  apply String.eqb_neq. intros E. apply H. now left.
Qed.

(** X11: A translation that settles after its message has left the list (the
    room was changed, or a failed send was rolled back) changes nothing. *)
Theorem late_translation_changes_nothing req translation s :
  ~ In (id (untranslated req)) (ids (messages s)) ->
  doTranslation_settle req translation s = inl s.
Proof.
  intros Habsent.
  destruct (doTranslation_settle_messages req translation s) as (t & -> & _).
  rewrite annotate_absent by exact Habsent. now destruct s.
Qed.

Lemma late_translation_changes_nothing_witness :
  let req := mkRequest (newMessage ana hola) "English" "Spanish" in
  let s := initRoom_start (draft_hi [newMessage ana hola]) in
  ~ In (id (untranslated req)) (ids (messages s)) /\
  doTranslation_settle req (inl "hello") s = inl s.
Proof.
  assert (H : ~ In (id (untranslated
                          (mkRequest (newMessage ana hola) "English" "Spanish")))
                   (ids (messages
                           (initRoom_start (draft_hi [newMessage ana hola])))))
    by (intros []).
  split; [exact H|].
  exact (late_translation_changes_nothing
           (mkRequest (newMessage ana hola) "English" "Spanish") (inl "hello")
           (initRoom_start (draft_hi [newMessage ana hola])) H).
Defined.

Lemma is_untranslated_annotate i t (m : TranslatedMessage) :
  is_untranslated (annotate i t m)
  = is_untranslated m && negb (String.eqb (id m) i).
Proof.
  unfold annotate. destruct (String.eqb (id m) i); simpl.
  - now rewrite andb_false_r.
  - now rewrite andb_true_r.
Qed.

Lemma awaiting_annotate i t l :
  (awaiting (map (annotate i t) l) <= awaiting l)%nat /\
  ((exists m : TranslatedMessage,
      In m l /\ id m = i /\ is_untranslated m = true) ->
   (awaiting (map (annotate i t) l) < awaiting l)%nat).
Proof.
  unfold awaiting. induction l as [|x l [IHle IHlt]]; simpl.
  - split; [lia|]. intros (m & [] & _).
  - rewrite is_untranslated_annotate.
    destruct (is_untranslated x) eqn:Hx; simpl.
    + destruct (String.eqb_spec (id x) i) as [E|E]; simpl.
      * split; intros; lia.
      * split; [lia|]. intros (m & [<-|Hm] & Hid & Hu); [contradiction|].
        apply -> Nat.succ_lt_mono. apply IHlt. eauto.
    + split; [lia|]. intros (m & [<-|Hm] & Hid & Hu); [congruence|].
      apply IHlt. eauto.
Qed.

(** X12: The translation work runs out: the settling of a request never adds a
    message that awaits translation, and it takes at least one away when a
    message with the request's id still awaited translation; the settled
    message is served even when the translation is the empty string. *)
Theorem translation_settling_makes_progress req translation s :
  exists s',
    doTranslation_settle req translation s = inl s' /\
    (awaiting (messages s') <= awaiting (messages s))%nat /\
    ((exists m : TranslatedMessage,
        In m (messages s) /\ id m = id (untranslated req)
        /\ is_untranslated m = true) ->
     (awaiting (messages s') < awaiting (messages s))%nat).
Proof.
  destruct (doTranslation_settle_messages req translation s) as (t & -> & _).
  eexists. split; [reflexivity|]. simpl. apply awaiting_annotate.
Qed.

(** ** Invariants of the pipeline *)

Lemma Forall_annotation_settled_perm l1 l2 :
  Permutation l1 l2 ->
  Forall annotation_settled l1 -> Forall annotation_settled l2.
Proof. intros Hp. apply Permutation_Forall, Hp. Qed.

Lemma processMessage_annotation_settled userRef msg prev :
  Forall annotation_settled prev ->
  Forall annotation_settled (processMessage userRef msg prev).
Proof.
  intros Hprev. destruct userRef as [user|]; [|exact Hprev].
  assert (Hnew : annotation_settled (newMessage user msg)) by now left.
  destruct (processMessage_processed user msg prev)
    as [Hin | l1 p l2 _ -> Hp Hl1 | _ Hnone]; [exact Hprev | |];
    (eapply Permutation_Forall; [symmetry; apply sort_by_perm|]);
    rewrite List.Forall_app in *.
  - destruct Hprev as [H1 H2]. apply Forall_inv_tail in H2.
    split; [exact H1|]. now constructor.
  - split; [exact Hprev|]. now repeat constructor.
Qed.

Lemma admitHistory_annotation_settled history prev :
  Forall annotation_settled prev ->
  Forall annotation_settled (admitHistory history prev).
Proof.
  rewrite !List.Forall_forall.
  intros Hprev x Hx. apply admitHistory_In, last_with_id_Some in Hx as [Hx _].
  apply in_app_or in Hx as [Hx|Hx]; [|now apply Hprev].
  apply in_map_iff in Hx as (m & <- & _). now left.
Qed.

Lemma annotate_annotation_settled i t l :
  Forall annotation_settled l ->
  Forall annotation_settled (map (annotate i t) l).
Proof.
  rewrite !List.Forall_forall.
  intros Hl x Hx. apply in_map_iff in Hx as (m & <- & Hm).
  unfold annotate. destruct (String.eqb (id m) i); [now right|].
  now apply Hl.
Qed.

Lemma step_annotation_settled langs p e :
  Forall annotation_settled (messages (app p)) ->
  Forall annotation_settled (messages (app (step langs p e))).
Proof.
  intros Hp.
  destruct e as [draft | room | fetched | msg | now_id now_ts
                 | k insert_error | k api_key gen | langCode]; simpl.
  - exact Hp.
  - destruct (currentUser (app p)); [|exact Hp].
    rewrite run_effect_app. constructor.
  - destruct fetched as [history|err]; rewrite ?run_effect_app; simpl.
    + now apply admitHistory_annotation_settled.
    + exact Hp.
  - destruct (returns_prev _ _ _); [exact Hp|].
    rewrite run_effect_app. simpl.
    now apply processMessage_annotation_settled.
  - destruct (sendMessage_start now_id now_ts (app p)) as [s' [pending|]]
      eqn:Hstart; [|exact Hp].
    rewrite run_effect_app. simpl.
    apply sendMessage_start_pending in Hstart
      as (user & opt & _ & _ & _ & _ & _ & Hflag & _ & Hmsgs & _).
    rewrite Hmsgs. apply List.Forall_app. split; [exact Hp|].
    constructor; [now right | constructor].
  - destruct (sending p !! k) as [pending|]; [|exact Hp].
    destruct insert_error as [err|]; simpl; rewrite ?run_effect_app; simpl.
    + rewrite List.Forall_forall in *. intros x Hx.
      apply filter_In in Hx as [Hx _]. now apply Hp.
    + exact Hp.
  - destruct (inflight p !! k) as [req|]; [|exact Hp].
    destruct (translateText _ _ _ _ _) as [translated|err]; simpl;
      rewrite run_effect_app; simpl; now apply annotate_annotation_settled.
  - destruct (currentUser (app p)); [|exact Hp].
    rewrite run_effect_app. exact Hp.
Qed.

(** X13: In every state the pipeline reaches after sign-in, a message that
    carries a translation is not marked as being translated: the view never
    shows the waiting dots for a message whose translation has arrived. *)
Theorem translated_messages_not_marked langs u evs :
  Forall annotation_settled (messages (app (run langs (signed_in u) evs))).
Proof.
  assert (H : forall p,
            Forall annotation_settled (messages (app p)) ->
            Forall annotation_settled (messages (app (run langs p evs)))).
  { induction evs as [|e evs IH]; simpl; intros p Hp; [exact Hp|].
    now apply IH, step_annotation_settled. }
  apply H. constructor.
Qed.

Lemma sorted_by_timestamps l :
  sorted_by_timestamp l <-> StronglySorted Z.le (timestamps l).
Proof.
  unfold sorted_by_timestamp, sorted_by, timestamps.
  induction l as [|x l IH]; simpl; split; intros H; try constructor;
    apply StronglySorted_inv in H as [Hl Hx].
  - now apply IH.
  - rewrite List.Forall_forall in *. intros t Ht.
    apply in_map_iff in Ht as (m & <- & Hm). now apply Hx.
  - now apply IH.
  - rewrite List.Forall_forall in *. intros m Hm. apply Hx.
    apply in_map_iff. now exists m.
Qed.

Lemma sorted_by_snoc {A} (key : A -> Z) l x :
  sorted_by key l -> Forall (fun y => key y <= key x) l ->
  sorted_by key (l ++ [x]).
Proof.
  unfold sorted_by. induction 1 as [|a l Hl IH Ha]; simpl; intros Hx.
  - repeat constructor.
  - apply Forall_inv in Hx as Hax. apply Forall_inv_tail in Hx.
    constructor; [now apply IH|].
    apply List.Forall_app. split; [exact Ha | now repeat constructor].
Qed.

(** X14: The list stays in timestamp order through every event but a submit
    made while the local clock is behind a timestamp of the list: a sorted
    list is sorted again after a keystroke, room entry, the settling of the
    history fetch, a live message, the settling of a send or of a
    translation, a change of language, and after a submit whose timestamp is
    not below any timestamp of the list. *)
Theorem order_kept_unless_clock_behind langs p e :
  sorted_by_timestamp (messages (app p)) ->
  clock_not_behind p e ->
  sorted_by_timestamp (messages (app (step langs p e))).
Proof.
  intros Hp Hclock.
  destruct e as [draft | room | fetched | msg | now_id now_ts
                 | k insert_error | k api_key gen | langCode]; simpl.
  - exact Hp.
  - destruct (currentUser (app p)); [|exact Hp].
    rewrite run_effect_app. constructor.
  - destruct fetched as [history|err]; rewrite ?run_effect_app; simpl.
    + apply admitHistory_sorted.
    + exact Hp.
  - destruct (returns_prev _ _ _); [exact Hp|].
    rewrite run_effect_app. simpl. now apply processMessage_sorted.
  - destruct (sendMessage_start now_id now_ts (app p)) as [s' [pending|]]
      eqn:Hstart; [|exact Hp].
    rewrite run_effect_app. simpl. simpl in Hclock.
    apply sendMessage_start_pending in Hstart
      as (user & opt & _ & _ & _ & _ & Hts & _ & _ & Hmsgs & _).
    rewrite Hmsgs. apply sorted_by_snoc; [exact Hp|]. simpl.
    now rewrite Hts.
  - destruct (sending p !! k) as [pending|]; [|exact Hp].
    destruct insert_error as [err|]; simpl; rewrite ?run_effect_app; simpl.
    + now apply sorted_filter.
    + exact Hp.
  - destruct (inflight p !! k) as [req|]; [|exact Hp].
    destruct (translateText _ _ _ _ _) as [translated|err]; simpl;
      rewrite run_effect_app; simpl;
      apply sorted_by_timestamps; rewrite timestamps_annotate;
      now apply sorted_by_timestamps.
  - destruct (currentUser (app p)); [|exact Hp].
    rewrite run_effect_app. exact Hp.
Qed.

Lemma order_kept_unless_clock_behind_witness :
  let p := mkPipe (draft_hi [newMessage ana hola]) [] [] in
  sorted_by_timestamp (messages (app p)) /\
  clock_not_behind p (Submit 1010 1010) /\
  sorted_by_timestamp (messages (app (step languages p (Submit 1010 1010)))).
Proof.
  assert (Hs : sorted_by_timestamp [newMessage ana hola])
    by repeat constructor.
  assert (Hc : clock_not_behind (mkPipe (draft_hi [newMessage ana hola]) [] [])
                 (Submit 1010 1010)).
  { simpl. repeat constructor. simpl. lia. }
  split; [exact Hs|]. split; [exact Hc|].
  exact (order_kept_unless_clock_behind languages
           (mkPipe (draft_hi [newMessage ana hola]) [] [])
           (Submit 1010 1010) Hs Hc).
Defined.

(** ** The listener registry of the sync adapter *)

Lemma set_add_In h h' l : In h' (set_add h l) <-> h' = h \/ In h' l.
Proof.
  unfold set_add. destruct (existsb (Nat.eqb h) l) eqn:E.
  - split; [now right|]. intros [->|H]; [|exact H].
    apply existsb_exists in E as (x & Hx & Heq).
    apply Nat.eqb_eq in Heq. now subst x.
  - rewrite in_app_iff. simpl. intuition.
Qed.

Lemma set_add_NoDup h l : List.NoDup l -> List.NoDup (set_add h l).
Proof.
  intros Hnd. unfold set_add. destruct (existsb (Nat.eqb h) l) eqn:E;
    [exact Hnd|].
  eapply Permutation_NoDup; [apply Permutation_cons_append|].
  constructor; [|exact Hnd]. intros Hin.
  assert (existsb (Nat.eqb h) l = true); [|congruence].
  apply existsb_exists. exists h. split; [exact Hin | apply Nat.eqb_refl].
Qed.

Lemma set_delete_In h h' l : In h' (set_delete h l) <-> h' <> h /\ In h' l.
Proof.
  unfold set_delete. rewrite filter_In, negb_true_iff, Nat.eqb_neq. tauto.
Qed.

Lemma set_delete_absent h l : ~ In h l -> set_delete h l = l.
Proof.
  intros H. apply filter_all, List.Forall_forall. intros x Hx.
  apply negb_true_iff, Nat.eqb_neq. intros ->. contradiction.
Qed.

(** X15: The function [onMessage] returns takes away the handler it was made for
    and no other: afterwards that handler is not registered, every other
    handler is registered exactly if it was; a handler registered twice is
    registered once, so one call of the function takes it away; and
    registering a new handler and calling the function gives the adapter
    back as it was. *)
Theorem unsubscribe_removes_own_handler h c :
  ~ In h (handlers (unsubscribe h c)) /\
  (forall h', h' <> h ->
     (In h' (handlers (unsubscribe h c)) <-> In h' (handlers c))) /\
  ~ In h (handlers (unsubscribe h (onMessage h (onMessage h c)))) /\
  (~ In h (handlers c) -> unsubscribe h (onMessage h c) = c).
Proof.
  repeat split.
  - simpl. rewrite set_delete_In. tauto.
  - simpl. rewrite set_delete_In. tauto.
  - simpl. rewrite set_delete_In. tauto.
  - simpl. rewrite set_delete_In. tauto.
  - intros Hnew. destruct c as [ch hs sys]. unfold unsubscribe, onMessage.
    simpl in *. f_equal. unfold set_add.
    assert (E : existsb (Nat.eqb h) hs = false).
    { destruct (existsb (Nat.eqb h) hs) eqn:E; [|reflexivity].
      apply existsb_exists in E as (x & Hx & Heq).
      apply Nat.eqb_eq in Heq. now subst x. }
    rewrite E. unfold set_delete. rewrite List.filter_app. simpl.
    rewrite Nat.eqb_refl. simpl. rewrite app_nil_r.
    now apply set_delete_absent.
Qed.

Lemma sync_call_NoDup c call :
  List.NoDup (handlers c) -> List.NoDup (systemHandlers c) ->
  List.NoDup (handlers (sync_call c call))
  /\ List.NoDup (systemHandlers (sync_call c call)).
Proof.
  intros Hh Hs. destruct call; simpl; unfold connect;
    try destruct (roomChannel c); simpl; split;
    first [ assumption
          | now apply set_add_NoDup
          | now apply List.NoDup_filter
          | apply List.NoDup_nil ].
Qed.

Lemma sync_calls_NoDup calls c :
  List.NoDup (handlers c) -> List.NoDup (systemHandlers c) ->
  List.NoDup (handlers (sync_calls c calls))
  /\ List.NoDup (systemHandlers (sync_calls c calls)).
Proof.
  revert c. induction calls as [|call calls IH]; simpl; intros c Hh Hs;
    [now split|].
  destruct (sync_call_NoDup c call Hh Hs). now apply IH.
Qed.

Lemma inb_In x l : existsb (Nat.eqb x) l = true <-> In x l.
Proof.
  rewrite existsb_exists. split.
  - intros (y & Hy & Heq). apply Nat.eqb_eq in Heq. now subst y.
  - intros Hx. exists x. split; [exact Hx | apply Nat.eqb_refl].
Qed.

Lemma inb_set_add x h l :
  existsb (Nat.eqb x) (set_add h l)
  = existsb (Nat.eqb x) l || Nat.eqb h x.
Proof.
  apply eq_iff_eq_true.
  rewrite orb_true_iff, !inb_In, set_add_In, Nat.eqb_eq.
  intuition (subst; auto).
Qed.

Lemma inb_set_delete x h l :
  existsb (Nat.eqb x) (set_delete h l)
  = existsb (Nat.eqb x) l && negb (Nat.eqb h x).
Proof.
  apply eq_iff_eq_true.
  rewrite andb_true_iff, negb_true_iff, !inb_In, set_delete_In, Nat.eqb_neq.
  intuition (subst; auto).
Qed.

Lemma registered_after_handlers handler calls c :
  existsb (Nat.eqb handler) (handlers (sync_calls c calls))
  = registered_after handler calls (existsb (Nat.eqb handler) (handlers c)).
Proof.
  unfold sync_calls, registered_after. revert c.
  induction calls as [|call calls IH]; simpl; intros c; [reflexivity|].
  rewrite IH. f_equal.
  destruct call; simpl;
    rewrite ?inb_set_add, ?inb_set_delete; try reflexivity.
  unfold connect. now destruct (roomChannel c).
Qed.

(** X16: How often the callback of a room channel calls a handler.  Whatever
    calls the adapter has received since it was made, a run of the callback
    for an inserted row calls a handler exactly once when the handler was
    registered by [onMessage] and neither its unsubscribe nor a [disconnect]
    came after that, and does not call it otherwise; registering a handler
    again does not make it called twice. *)
Theorem row_delivered_once_per_handler calls dbMsg handler :
  let c := sync_calls chatSync_new calls in
  count_occ Nat.eq_dec (map fst (on_insert c dbMsg)) handler
  = if registered_after handler calls false then 1%nat else 0%nat.
Proof.
  cbv zeta. set (c := sync_calls chatSync_new calls).
  assert (Hcalls : map fst (on_insert c dbMsg) = handlers c).
  { unfold on_insert. rewrite map_map. simpl. apply map_id. }
  rewrite Hcalls.
  assert (Hnd : List.NoDup (handlers c))
    by (apply sync_calls_NoDup; constructor).
  change false with (existsb (Nat.eqb handler) (handlers chatSync_new)).
  rewrite <- registered_after_handlers. fold c.
  destruct (existsb (Nat.eqb handler) (handlers c)) eqn:E.
  - apply inb_In in E. now apply NoDup_count_occ'.
  - apply count_occ_not_In. intros Hin. apply inb_In in Hin. congruence.
Qed.

Lemma sync_calls_app c calls1 calls2 :
  sync_calls c (calls1 ++ calls2) = sync_calls (sync_calls c calls1) calls2.
Proof. apply fold_left_app. Qed.

Lemma last_cons {A} (a d : A) l : List.last (a :: l) d = List.last l a.
Proof.
  revert a d. induction l as [|b l IH]; intros a d; [reflexivity|].
  change (List.last (a :: b :: l) d) with (List.last (b :: l) d).
  now rewrite !IH.
Qed.

Lemma effect_enter_state h roomId c :
  roomChannel c = None -> handlers c = [] ->
  sync_calls c (effect_enter roomId h)
  = mkSync (Some roomId) [h] (systemHandlers c).
Proof.
  intros Hch Hh. simpl. unfold connect. rewrite Hch. unfold onMessage. simpl.
  now rewrite Hh.
Qed.

Lemma room_visits_state h rooms roomId c :
  roomChannel c = None ->
  handlers c = [] ->
  let c' := sync_calls c (room_visits h (roomId :: rooms)) in
  roomChannel c' = Some (List.last rooms roomId) /\
  handlers c' = [h] /\
  systemHandlers c' = systemHandlers c.
Proof.
  revert roomId c.
  induction rooms as [|next rooms IH]; intros roomId c Hch Hc.
  - cbv zeta. change (room_visits h [roomId]) with (effect_enter roomId h).
    rewrite effect_enter_state by assumption. now repeat split.
  - cbv zeta. change (room_visits h (roomId :: next :: rooms))
      with (effect_enter roomId h ++ effect_cleanup h
            ++ room_visits h (next :: rooms)).
    rewrite !sync_calls_app, effect_enter_state by assumption.
    set (c1 := sync_calls (mkSync (Some roomId) [h] (systemHandlers c))
                 (effect_cleanup h)).
    destruct (IH next c1 eq_refl eq_refl) as (Hch1 & Hh1 & Hsys1).
    rewrite last_cons. repeat split; [exact Hch1 | exact Hh1 |].
    rewrite Hsys1. reflexivity.
Qed.

(** X17: The room effect of [App] keeps one listener on the adapter.  After the
    rooms of a list were entered one after the other, each left by the
    cleanup before the next is entered, the adapter holds the channel of the
    last room and exactly one registration of [processMessage]: a row
    inserted then is handed to [processMessage] once. *)
Theorem room_effect_keeps_one_listener h rooms roomId dbMsg :
  let c := sync_calls chatSync_new (room_visits h (roomId :: rooms)) in
  roomChannel c = Some (List.last rooms roomId) /\
  handlers c = [h] /\
  on_insert c dbMsg = [(h, rowToMessage dbMsg)].
Proof.
  cbv zeta.
  destruct (room_visits_state h rooms roomId chatSync_new eq_refl eq_refl)
    as (Hch & Hh & _).
  repeat split; [exact Hch | exact Hh |].
  unfold on_insert. now rewrite Hh.
Qed.

(** ** Friends and direct rooms *)

Lemma str_set_add_In x y l : In y (str_set_add x l) <-> y = x \/ In y l.
Proof.
  unfold str_set_add. destruct (existsb (String.eqb x) l) eqn:E.
  - split; [now right|]. intros [->|H]; [|exact H].
    apply existsb_exists in E as (z & Hz & Heq).
    apply String.eqb_eq in Heq. now subst z.
  - rewrite in_app_iff. simpl. intuition.
Qed.

Lemma str_set_add_NoDup x l : List.NoDup l -> List.NoDup (str_set_add x l).
Proof.
  intros Hnd. unfold str_set_add.
  destruct (existsb (String.eqb x) l) eqn:E; [exact Hnd|].
  eapply Permutation_NoDup; [apply Permutation_cons_append|].
  constructor; [|exact Hnd]. intros Hin.
  assert (existsb (String.eqb x) l = true); [|congruence].
  apply existsb_exists. exists x. split; [exact Hin | apply String.eqb_refl].
Qed.

Lemma set_spread_from l acc :
  List.NoDup acc ->
  List.NoDup (fold_left (fun acc x => str_set_add x acc) l acc) /\
  (forall y, In y (fold_left (fun acc x => str_set_add x acc) l acc)
             <-> In y acc \/ In y l).
Proof.
  revert acc. induction l as [|x l IH]; simpl; intros acc Hacc.
  - split; [exact Hacc|]. intros y. tauto.
  - destruct (IH (str_set_add x acc) (str_set_add_NoDup x acc Hacc))
      as [Hnd Hin].
    split; [exact Hnd|]. intros y. rewrite Hin, str_set_add_In.
    intuition (subst; auto).
Qed.

Lemma set_spread_spec l :
  List.NoDup (set_spread l) /\ (forall y, In y (set_spread l) <-> In y l).
Proof.
  destruct (set_spread_from l [] (List.NoDup_nil _)) as [Hnd Hin].
  split; [exact Hnd|]. intros y. rewrite (Hin y). simpl. tauto.
Qed.

(** One submit of the friend form: it is refused and the user is as before,
    or an address is added that is not the own one and was no friend, and
    the list of friends then holds no address twice. *)
Lemma handleAddFriend_cases f u :
  form_user f = Some u ->
  form_user (handleAddFriend f) = Some u \/
  exists u',
    form_user (handleAddFriend f) = Some u' /\
    email u' = email u /\
    friendEmailInput f <> email u /\
    ~ In (friendEmailInput f) (friends u) /\
    List.NoDup (friends u') /\
    (forall y, In y (friends u') <->
               In y (friends u) \/ y = friendEmailInput f).
Proof.
  intros Hu. unfold handleAddFriend. rewrite Hu.
  destruct (String.eqb (trim (friendEmailInput f)) ""); [now left|].
  destruct (String.eqb_spec (friendEmailInput f) (email u)) as [Hown|Hown];
    [now left|].
  destruct (existsb (String.eqb (friendEmailInput f)) (friends u)) eqn:Hknown;
    [now left|].
  destruct (set_spread_spec (friends u ++ [friendEmailInput f]))
    as [Hnd Hin].
  right. eexists. simpl. split; [reflexivity|]. simpl.
  repeat split; auto.
  - intros Hfr.
    assert (existsb (String.eqb (friendEmailInput f)) (friends u) = true);
      [|congruence].
    apply existsb_exists. eexists. split; [exact Hfr|apply String.eqb_refl].
  - intros Hy. apply Hin, in_app_or in Hy as [Hy|[<-|[]]]; auto.
  - intros [Hy| ->]; apply Hin, in_or_app; [now left | right; now left].
Qed.

(** X18: The friends of a user, over any sequence of submits of the friend form
    that starts with a list holding no address twice and not the own
    address: the list never holds an address twice, never holds the own
    address, keeps the friends it had, and every address it gained was
    submitted. *)
Theorem friends_stay_distinct inputs f u :
  form_user f = Some u ->
  List.NoDup (friends u) ->
  ~ In (email u) (friends u) ->
  exists u',
    form_user (add_friends inputs f) = Some u' /\
    email u' = email u /\
    List.NoDup (friends u') /\
    ~ In (email u') (friends u') /\
    (forall y, In y (friends u) -> In y (friends u')) /\
    (forall y, In y (friends u') -> In y (friends u) \/ In y inputs).
Proof.
  revert f u.
  induction inputs as [|input inputs IH]; simpl; intros f u Hu Hnd Hown.
  - exists u. repeat split; auto.
  - set (f1 := mkForm (form_user f) input (form_error f)).
    destruct (handleAddFriend_cases f1 u Hu)
      as [Hsame | (u1 & Hu1 & He1 & Hne & Hnew & Hnd1 & Hin1)].
    + destruct (IH (handleAddFriend f1) u Hsame Hnd Hown)
        as (u' & Hu' & He' & Hnd' & Hown' & Hkeep & Hin').
      exists u'. repeat split; auto.
      intros y Hy. apply Hin' in Hy as [Hy|Hy]; [now left | right; now right].
    + assert (Hown1 : ~ In (email u1) (friends u1)).
      { rewrite He1. intros Hy. apply Hin1 in Hy as [Hy|Hy];
          [now apply Hown | simpl in *; congruence]. }
      destruct (IH (handleAddFriend f1) u1 Hu1 Hnd1 Hown1)
        as (u' & Hu' & He' & Hnd' & Hown' & Hkeep & Hin').
      exists u'. repeat split; auto; [congruence | |].
      * intros y Hy. apply Hkeep, Hin1. now left.
      * intros y Hy. apply Hin' in Hy as [Hy|Hy]; [|right; now right].
        apply Hin1 in Hy as [Hy| ->]; [now left | right; now left].
Qed.

Lemma friends_stay_distinct_witness :
  let f := mkForm (Some ana) "" None in
  let inputs := ["bob@jeri.chat"; "ana@jeri.chat"; "bob@jeri.chat"; " "] in
  form_user f = Some ana /\
  List.NoDup (friends ana) /\
  ~ In (email ana) (friends ana) /\
  exists u',
    form_user (add_friends inputs f) = Some u' /\
    email u' = email ana /\
    List.NoDup (friends u') /\
    ~ In (email u') (friends u') /\
    (forall y, In y (friends ana) -> In y (friends u')) /\
    (forall y, In y (friends u') -> In y (friends ana) \/ In y inputs).
Proof.
  assert (Hnd : List.NoDup (friends ana)) by constructor.
  assert (Hown : ~ In (email ana) (friends ana)) by (intros []).
  split; [reflexivity|]. split; [exact Hnd|]. split; [exact Hown|].
  exact (friends_stay_distinct
           ["bob@jeri.chat"; "ana@jeri.chat"; "bob@jeri.chat"; " "]
           (mkForm (Some ana) "" None) ana eq_refl Hnd Hown).
Defined.

Lemma keep_alnum_alnum s : string_forallb is_alnum (keep_alnum s) = true.
Proof.
  induction s as [|c s IH]; simpl; [reflexivity|].
  destruct (is_alnum c) eqn:E; simpl; [now rewrite E|exact IH].
Qed.

Lemma sort_pair_sym a b : sort_pair a b = sort_pair b a.
Proof.
  unfold sort_pair.
  destruct (String.leb a b) eqn:Hab, (String.leb b a) eqn:Hba.
  - now rewrite (String.leb_antisym a b Hab Hba).
  - reflexivity.
  - reflexivity.
  - destruct (String.leb_total a b); congruence.
Qed.

(** X19: A direct chat is one room for both parties: the id computed from the
    own address and the friend's address is the id the friend's client
    computes, and it is made of ASCII letters and digits only. *)
Theorem direct_room_shared a b :
  direct_room_id a b = direct_room_id b a /\
  string_forallb is_alnum (direct_room_id a b) = true.
Proof.
  split.
  - unfold direct_room_id. now rewrite (sort_pair_sym a b).
  - apply keep_alnum_alnum.
Qed.

(** X20: Direct-room ids do not tell pairs of users apart: the separators are
    dropped with the other characters that are not letters or digits, so two
    different pairs of addresses can get the same room. *)
Theorem direct_room_id_collides :
  exists a b a' b',
    a <> a' /\ a <> b' /\
    direct_room_id a b = direct_room_id a' b'.
Proof.
  exists "a@bc.d", "e@f.g", "ab@c.d", "e@f.g".
  repeat split; discriminate.
Qed.

(** ** What the translation effect starts *)

Lemma find_none_awaiting l :
  List.find is_untranslated l = None -> awaiting l = 0%nat.
Proof.
  intros Hnone. unfold awaiting. rewrite filter_none; [reflexivity|].
  apply List.Forall_forall. intros x Hx.
  exact (List.find_none is_untranslated l Hnone x Hx).
Qed.

Lemma run_effect_served langs q :
  currentUser (app q) <> None ->
  (inflight (run_effect langs q) = inflight q /\
   awaiting (messages (app (run_effect langs q))) = 0%nat) \/
  (exists req,
     inflight (run_effect langs q) = inflight q ++ [req] /\
     first_untranslated (messages (app (run_effect langs q)))
                        (untranslated req)).
Proof.
  intros Huser. rewrite run_effect_app.
  unfold run_effect, translation_effect.
  destruct (List.find is_untranslated (messages (app q))) as [m|] eqn:Hfind.
  - destruct (currentUser (app q)); [|contradiction].
    right. eexists. split; [reflexivity|]. simpl. now apply find_first.
  - left. split; [|now apply find_none_awaiting].
    now destruct (currentUser (app q)).
Qed.

Ltac effect_served Huser :=
  match goal with
  | |- context [run_effect ?langs ?q] =>
      let H1 := fresh "H" in
      let H2 := fresh "H" in
      let req := fresh "req" in
      destruct (run_effect_served langs q Huser)
        as [[H1 H2] | (req & H1 & H2)];
      [ left; split; [exact H1 | left; exact H2]
      | right; exists req; split; [exact H1 | exact H2] ]
  end.

(** One event, in a state with a signed-in user: a request is started,
    for the first message that awaits translation, unless no message awaits
    translation or the event left list and user as they were. *)
Lemma step_served langs p e :
  currentUser (app p) <> None ->
  (inflight (step langs p e) = still_outstanding p e /\
   (awaiting (messages (app (step langs p e))) = 0%nat \/
    (messages (app (step langs p e)) = messages (app p) /\
     currentUser (app (step langs p e)) = currentUser (app p)))) \/
  (exists req,
     inflight (step langs p e) = still_outstanding p e ++ [req] /\
     first_untranslated (messages (app (step langs p e))) (untranslated req)).
Proof.
  intros Huser.
  destruct e as [draft | room | fetched | msg | now_id now_ts
                 | k insert_error | k api_key gen | langCode]; simpl.
  - left. auto.
  - destruct (currentUser (app p)) eqn:Hu; [|contradiction].
    assert (Hq : Some u <> None) by discriminate.
    match goal with
    | |- context [run_effect ?langs ?q] =>
        assert (Hq' : currentUser (app q) <> None) by exact Hq
    end.
    effect_served Hq'.
  - destruct fetched; [|left; auto].
    match goal with
    | |- context [run_effect ?langs ?q] =>
        assert (Hq' : currentUser (app q) <> None) by exact Huser
    end.
    effect_served Hq'.
  - destruct (returns_prev _ _ _); [left; auto|].
    match goal with
    | |- context [run_effect ?langs ?q] =>
        assert (Hq' : currentUser (app q) <> None) by exact Huser
    end.
    effect_served Hq'.
  - destruct (sendMessage_start now_id now_ts (app p)) as [s' [pending|]]
      eqn:Hstart; [|left; auto].
    apply sendMessage_start_pending in Hstart
      as (user & opt & _ & _ & _ & _ & _ & _ & _ & _ & _ & _ & Hcur).
    assert (Hq' : currentUser s' <> None) by now rewrite Hcur.
    match goal with
    | |- context [run_effect ?langs ?q] =>
        change (currentUser (app q) <> None) in Hq'
    end.
    effect_served Hq'.
  - destruct (sending p !! k); [|left; auto].
    destruct insert_error; simpl; [|left; auto].
    match goal with
    | |- context [run_effect ?langs ?q] =>
        assert (Hq' : currentUser (app q) <> None) by exact Huser
    end.
    effect_served Hq'.
  - destruct (inflight p !! k) as [req|] eqn:Hk.
    + destruct (translateText _ _ _ _ _); simpl;
        match goal with
        | |- context [run_effect ?langs ?q] =>
            assert (Hq' : currentUser (app q) <> None) by exact Huser
        end;
        effect_served Hq'.
    + left. split; [|right; auto]. symmetry. now apply delete_absent.
  - destruct (currentUser (app p)) eqn:Hu; [|contradiction].
    match goal with
    | |- context [run_effect ?langs ?q] =>
        assert (Hq' : currentUser (app q) <> None) by (simpl; discriminate)
    end.
    effect_served Hq'.
Qed.

(** X21: What an event starts, in every state the pipeline reaches after
    sign-in.  An event that leaves a message awaiting translation starts a
    request, exactly one, unless it left the list and the user as they
    were; the request joins those still outstanding and is for the first
    message of the new list with [isTranslating] true and no
    [translatedText], which is the oldest such message of the list.  An
    event that starts no request leaves the outstanding requests as they
    are.  When the event is the settling of a request, no message with the
    id of that request awaits translation afterwards. *)
Theorem translation_effect_serves_oldest langs u evs e :
  let p := run langs (signed_in u) evs in
  let p' := step langs p e in
  ((inflight p' = still_outstanding p e /\
    (awaiting (messages (app p')) = 0%nat \/
     (messages (app p') = messages (app p) /\
      currentUser (app p') = currentUser (app p)))) \/
   (exists req,
      inflight p' = still_outstanding p e ++ [req] /\
      first_untranslated (messages (app p')) (untranslated req) /\
      Forall (fun x : TranslatedMessage =>
                is_untranslated x = true ->
                timestamp (untranslated req) <= timestamp x)
             (messages (app p')))) /\
  (forall k api_key gen req,
     e = TranslationSettled k api_key gen ->
     inflight p !! k = Some req ->
     Forall (fun x : TranslatedMessage =>
               id x = id (untranslated req) -> is_untranslated x = false)
            (messages (app p'))).
Proof.
  intros p p'. split.
  - assert (Huser : currentUser (app p) <> None).
    { destruct (run_own_unmarked langs u evs (signed_in u)) as [(u' & Hu' & _) _].
      - split; [now exists u | constructor].
      - fold p in Hu'. now rewrite Hu'. }
    destruct (step_served langs p e Huser) as [H | (req & H1 & H2)];
      [now left | right].
    exists req. repeat split; [exact H1 | exact H2 |].
    apply first_untranslated_oldest; [|exact H2].
    apply step_marked_in_order, run_marked_in_order. constructor.
  - intros k api_key gen req -> Hk. subst p'. simpl. rewrite Hk.
    destruct (translateText _ _ _ _ _); simpl; rewrite run_effect_app; simpl;
      apply annotate_not_untranslated.
Qed.
